(** * Turtlebot3 EKF-SLAM: the estimator (turtlelib/kalman.cpp) and the
      simulator's actuation and collision code (nusim/nusim.cpp)

    A shallow embedding of the C++ sources.  A [double] is read as a
    mathematical real ([R]): rounding, infinities and NaN are outside the
    model.  An [int] is a [Z]; where the source narrows an unsigned size to
    [int] the wrap-around is written out, and a double cast to [int] is cut
    toward zero where it fits.  Armadillo's checked element
    access and size-conformance checks are modelled as exceptions that
    leave the object as mutated so far. *)

From stdpp Require Import gmap.
From Stdlib Require Import Reals Lra Lia ZArith List.
Import ListNotations.

Local Open Scope R_scope.

(** ** Scalar helpers of turtlelib and of the C++ library *)

(** Modelled from the spec: [normalize_angle] of turtlelib/rigid2d.hpp, which
    is not under src/.  The spec has it "normalize an angle into (-pi, pi]":
    the representative of [rad] modulo a full turn in that interval. *)
Definition normalize_angle (rad : R) : R :=
  rad - 2 * PI * IZR (1 - up ((PI - rad) / (2 * PI))).

Section Tolerance.

(** Modelled from the spec: [almost_equal] of turtlelib/rigid2d.hpp, which
    is not under src/ ("thetadot ≈ 0"): two doubles closer than a
    tolerance.  The tolerance is the header's default argument and is kept
    as a parameter here. *)
Variable epsilon : R.

Definition almost_equal (d1 d2 : R) : bool :=
  if Rlt_dec (Rabs (d1 - d2)) epsilon then true else false.

End Tolerance.

(** [std::atan2] on reals: the angle in (-pi, pi] of the point [(x, y)];
    [atan2 0 0 = 0] as for the C library at positive zeros. *)
Definition atan2 (y x : R) : R :=
  if Rlt_dec 0 x then atan (y / x)
  else if Rlt_dec x 0 then
    (if Rle_dec 0 y then atan (y / x) + PI else atan (y / x) - PI)
  else if Rlt_dec 0 y then PI / 2
  else if Rlt_dec y 0 then - (PI / 2)
  else 0.

(** The conversion of an [arma::uword] row count to [int] (32 bits, two's
    complement). *)
Definition int_of_uword (n : nat) : Z :=
  ((Z.of_nat n + 2 ^ 31) mod 2 ^ 32 - 2 ^ 31)%Z.

(** The range of [int] (32 bits, two's complement). *)
Definition INT_MIN : Z := (- 2 ^ 31)%Z.
Definition INT_MAX : Z := (2 ^ 31 - 1)%Z.

(** The doubles whose integral part is an [int]. *)
Definition fits_int (x : R) : Prop := IZR INT_MIN - 1 < x < IZR INT_MAX + 1.

(** A C-style [(int)] cast of a double: truncation toward zero where the
    integral part is an [int].  Elsewhere the conversion is undefined in
    C++; the value given here is the one the x86-64 conversion instruction
    leaves ([INT_MIN]), and the properties below speak of doubles that fit
    only. *)
Definition int_of_double (x : R) : Z :=
  if Rlt_dec (IZR INT_MIN - 1) x then
    if Rlt_dec x (IZR INT_MAX + 1) then
      if Rle_dec 0 x then Int_part x else (- Int_part (- x))%Z
    else INT_MIN
  else INT_MIN.

(** ** Exceptions *)

Inductive exn : Type :=
| out_of_range    (* Armadillo: element index out of bounds *)
| logic_error.    (* Armadillo: incompatible matrix dimensions *)

Inductive outcome (A : Type) : Type :=
| Ok (a : A)
| Throw (e : exn).
Arguments Ok {A} a.
Arguments Throw {A} e.

(** ** Dense matrices (arma::mat) *)

Module Arma.

(** A matrix is the list of its rows. The default-constructed matrix is
    the empty list. *)
Definition mat : Type := list (list R).

Definition empty : mat := [].

Definition n_rows (m : mat) : nat := length m.

Definition n_cols (m : mat) : nat :=
  match m with
  | [] => 0%nat
  | r :: _ => length r
  end.

(** [arma::mat(r, c, arma::fill::zeros)] *)
Definition zeros (r c : nat) : mat := repeat (repeat 0 c) r.

(** [arma::mat{a, b}]: an initializer list of scalars is a row vector. *)
Definition row (l : list R) : mat := [l].

(** [arma::eye(r, c)] *)
Definition eye (r c : nat) : mat :=
  map (fun i => map (fun j => if Nat.eqb i j then 1 else 0) (seq 0 c))
      (seq 0 r).

(** [m(i, j)], read: bounds-checked. *)
Definition elem (m : mat) (i j : nat) : outcome R :=
  match nth_error m i with
  | Some r =>
      match nth_error r j with
      | Some v => Ok v
      | None => Throw out_of_range
      end
  | None => Throw out_of_range
  end.

(** [m(i, j)] with a signed index: a negative [int] converts to a huge
    unsigned index, beyond every row count. *)
Definition elem_int (m : mat) (i : Z) (j : nat) : outcome R :=
  if (i <? 0)%Z then Throw out_of_range else elem m (Z.to_nat i) j.

(** [m(i, j) = v] on a matrix that has the element (the source only
    assigns into freshly sized locals). *)
Definition set_elem (m : mat) (i j : nat) (v : R) : mat :=
  alter (fun r => <[j := v]> r) i m.

(** [m.t()] *)
Fixpoint t (m : mat) : mat :=
  match m with
  | [] => []
  | r :: m' =>
      match m' with
      | [] => map (fun v => [v]) r
      | _ => zip_with cons r (t m')
      end
  end.

(** [join_cols(a, b)]: [b] below [a]; the column counts must agree unless
    one side is empty. *)
Definition join_cols (a b : mat) : outcome mat :=
  match a, b with
  | [], _ => Ok b
  | _, [] => Ok a
  | _, _ => if Nat.eqb (n_cols a) (n_cols b) then Ok (a ++ b)
            else Throw logic_error
  end.

Definition dot (u v : list R) : R :=
  fold_right Rplus 0 (zip_with Rmult u v).

(** [a * b] *)
Definition mul (a b : mat) : outcome mat :=
  if Nat.eqb (n_cols a) (n_rows b)
  then Ok (map (fun r => map (dot r) (t b)) a)
  else Throw logic_error.

(** [a + b] *)
Definition add (a b : mat) : outcome mat :=
  if Nat.eqb (n_rows a) (n_rows b) && Nat.eqb (n_cols a) (n_cols b)
  then Ok (zip_with (zip_with Rplus) a b)
  else Throw logic_error.

End Arma.

(** ** Stateful code that may throw

    A member function is a state transformer over its object that ends
    normally or with an exception; a thrown exception keeps the assignments
    made before it. *)

Module StateExn.

Definition M (S A : Type) : Type := S -> outcome A * S.

Definition ret {S A} (a : A) : M S A := fun s => (Ok a, s).

Definition bind {S A B} (m : M S A) (f : A -> M S B) : M S B :=
  fun s =>
    match m s with
    | (Ok a, s') => f a s'
    | (Throw e, s') => (Throw e, s')
    end.

Definition lift {S A} (o : outcome A) : M S A := fun s => (o, s).

Definition gets {S A} (f : S -> A) : M S A := fun s => (Ok (f s), s).

Definition modify {S} (f : S -> S) : M S unit := fun s => (Ok tt, f s).

(** [for (i = 0; i < n; i++) body(i)] over the indices [l]. *)
Fixpoint for_each {S} (l : list nat) (body : nat -> M S unit) : M S unit :=
  match l with
  | [] => ret tt
  | i :: l' => bind (body i) (fun _ => for_each l' body)
  end.

Declare Scope monad_scope.
Delimit Scope monad_scope with monad.
Notation "'do' x <- m 'in' k" := (bind m (fun x => k))
  (at level 10, x name, m at level 100, k at level 200) : monad_scope.
Notation "m ';;;' k" := (bind m (fun _ => k))
  (at level 100, k at level 200, right associativity) : monad_scope.

End StateExn.

(** ** The estimator: turtlelib/kalman.cpp *)

Module Kalman.

Import Arma StateExn.
Local Open Scope monad_scope.

(** turtlelib::Twist2D (rigid2d.hpp) *)
Record Twist2D : Type := mkTwist2D {
  thetadot : R;
  xdot : R;
  ydot : R
}.

Record LandmarkMeasurement : Type := mkLandmarkMeasurement {
  r : R;
  phi : R;
  marker_id : Z
}.

(** The private members of [class KalmanFilter], in declaration order. *)
Record KalmanFilter : Type := mkKalmanFilter {
  qt_hat : mat;
  mt_hat : mat;
  Xi_hat : mat;
  sigma_hat : mat;
  Q_mat : mat;
  landmarks_dict : gmap Z Z
}.

Definition M : Type -> Type := StateExn.M KalmanFilter.

Definition set_qt_hat (v : mat) (s : KalmanFilter) : KalmanFilter :=
  mkKalmanFilter v (mt_hat s) (Xi_hat s) (sigma_hat s) (Q_mat s)
                 (landmarks_dict s).

Definition set_Xi_hat (v : mat) (s : KalmanFilter) : KalmanFilter :=
  mkKalmanFilter (qt_hat s) (mt_hat s) v (sigma_hat s) (Q_mat s)
                 (landmarks_dict s).

Definition set_sigma_hat (v : mat) (s : KalmanFilter) : KalmanFilter :=
  mkKalmanFilter (qt_hat s) (mt_hat s) (Xi_hat s) v (Q_mat s)
                 (landmarks_dict s).

Definition set_landmarks_dict (d : gmap Z Z) (s : KalmanFilter)
  : KalmanFilter :=
  mkKalmanFilter (qt_hat s) (mt_hat s) (Xi_hat s) (sigma_hat s) (Q_mat s) d.

(** [Xi_hat(i, 0)] *)
Definition Xi (i : nat) : M R := fun s => (elem (Xi_hat s) i 0, s).

(** [KalmanFilter::KalmanFilter()]: [mt_hat] and [landmarks_dict] are
    default-constructed. *)
Definition KalmanFilter_new : KalmanFilter :=
  let qt := zeros 3 1 in
  {| qt_hat := qt;
     mt_hat := empty;
     Xi_hat := qt;
     sigma_hat := zeros 3 3;
     Q_mat := zeros 3 3;
     landmarks_dict := ∅ |}.

Section Filter.

Variable epsilon : R.

(** [KalmanFilter::predict] *)
Definition predict (V : Twist2D) : M unit :=
  let A_t := zeros 3 3 in
  let qt_hat_new := zeros 3 1 in
  do qA <-
    (if almost_equal epsilon (thetadot V) 0 then
       do x <- Xi 1 in
       do th <- Xi 0 in
       do y <- Xi 2 in
       let qt_hat_new := set_elem qt_hat_new 0 0 0 in
       let qt_hat_new := set_elem qt_hat_new 1 0 (x + xdot V * cos th) in
       let qt_hat_new := set_elem qt_hat_new 2 0 (y + xdot V * sin th) in
       let A_t := set_elem A_t 1 0 (- xdot V * sin th) in
       let A_t := set_elem A_t 2 0 (xdot V * cos th) in
       ret (qt_hat_new, A_t)
     else
       do th <- Xi 0 in
       do x <- Xi 1 in
       do y <- Xi 2 in
       let qt_hat_new :=
         set_elem qt_hat_new 0 0 (normalize_angle (th + thetadot V)) in
       let qt_hat_new :=
         set_elem qt_hat_new 1 0
           (x - (xdot V / thetadot V) * sin th
              + (xdot V / thetadot V) * sin (th + thetadot V)) in
       let qt_hat_new :=
         set_elem qt_hat_new 2 0
           (y + (xdot V / thetadot V) * cos th
              - (xdot V / thetadot V) * cos (th + thetadot V)) in
       let A_t :=
         set_elem A_t 1 0
           (- (xdot V / thetadot V) * cos th
            + (xdot V / thetadot V) * cos (th + thetadot V)) in
       let A_t :=
         set_elem A_t 2 0
           (- (xdot V / thetadot V) * sin th
            + (xdot V / thetadot V) * sin (th + thetadot V)) in
       ret (qt_hat_new, A_t)) in
  do A_t <- lift (add (eye (n_rows (snd qA)) (n_cols (snd qA))) (snd qA)) in
  modify (set_qt_hat (fst qA)) ;;;
  do sigma <- gets sigma_hat in
  do Q <- gets Q_mat in
  do AS <- lift (mul A_t sigma) in
  do ASA <- lift (mul AS (t A_t)) in
  do sigma_new <- lift (add ASA Q) in
  modify (set_sigma_hat sigma_new).

(** [landmarks_dict.count(id)] *)
Definition dict_count (id : Z) : M nat :=
  gets (fun s => match landmarks_dict s !! id with
                 | Some _ => 1%nat
                 | None => 0%nat
                 end).

(** [landmarks_dict[id]], read: [std::map::operator[]] inserts a
    value-initialized entry when the key is absent. *)
Definition dict_index (id : Z) : M Z :=
  fun s =>
    match landmarks_dict s !! id with
    | Some i => (Ok i, s)
    | None => (Ok 0%Z, set_landmarks_dict (<[id := 0%Z]> (landmarks_dict s)) s)
    end.

(** [KalmanFilter::update_measurements] *)
Definition update_measurements (measurement : LandmarkMeasurement)
  : M unit :=
  do seen <- dict_count (marker_id measurement) in
  if Nat.eqb seen 0 then
    do x <- Xi 1 in
    do th <- Xi 0 in
    let mx_j := x + r measurement
                    * cos (normalize_angle (phi measurement + th)) in
    do y <- Xi 2 in
    let my_j := y + r measurement
                    * sin (normalize_angle (phi measurement + th)) in
    let mt_j := t (row [mx_j; my_j]) in
    do Xi_old <- gets Xi_hat in
    do Xi_new <- lift (join_cols Xi_old mt_j) in
    modify (set_Xi_hat Xi_new) ;;;
    modify (fun s =>
              set_landmarks_dict
                (<[marker_id measurement := int_of_uword (n_rows (Xi_hat s))]>
                   (landmarks_dict s)) s)
  else ret tt.

(** The body of the loop of [KalmanFilter::update]. The expected
    measurement [h] is computed and dropped: the source has nothing
    after it. *)
Definition update_step (measurement : LandmarkMeasurement) : M unit :=
  update_measurements measurement ;;;
  do index <- dict_index (marker_id measurement) in
  do mj0 <- (fun s => (elem_int (Xi_hat s) index 0, s)) in
  do mj1 <- (fun s => (elem_int (Xi_hat s) (index + 1) 0, s)) in
  let mj := row [mj0; mj1] in
  do mjx <- lift (elem mj 0 0) in
  do x <- Xi 1 in
  do mjy <- lift (elem mj 1 0) in
  do y <- Xi 2 in
  (* std::pow(_, 2.0) is the square *)
let r_j := sqrt ((mjx - x) ^ 2 + (mjy - y) ^ 2) in
  do mjy' <- lift (elem mj 1 0) in
  do y' <- Xi 2 in
  do mjx' <- lift (elem mj 0 0) in
  do x' <- Xi 1 in
  do th <- Xi 0 in
  let phi_j := normalize_angle (atan2 (mjy' - y') (mjx' - x') - th) in
  let h := row [r_j; phi_j] in
  ret tt.

(** [KalmanFilter::update]: the measurements in order. *)
Fixpoint update (measurements : list LandmarkMeasurement) : M unit :=
  match measurements with
  | [] => ret tt
  | m :: rest => update_step m ;;; update rest
  end.

(** The accessors. *)
Definition pose_prediction (s : KalmanFilter) : mat := qt_hat s.
Definition map_prediction (s : KalmanFilter) : mat := mt_hat s.
Definition state_prediction (s : KalmanFilter) : mat := Xi_hat s.

(** The states a filter object can be in: constructed, then any
    sequence of calls of the public member functions.  A call that
    throws leaves the object in the state reached at the throw. *)
Inductive reachable : KalmanFilter -> Prop :=
| reachable_new : reachable KalmanFilter_new
| reachable_predict s V :
    reachable s -> reachable (snd (predict V s))
| reachable_update_measurements s m :
    reachable s -> reachable (snd (update_measurements m s))
| reachable_update s ms :
    reachable s -> reachable (snd (update ms s)).

End Filter.

(** The shape every reachable state has: the pose rows of [Xi_hat] are
    zero and the rows after them hold one column each, [mt_hat] is as
    constructed, and [sigma_hat] and [Q_mat] are 3 by 3. *)
Definition is_mat (rows cols : nat) (m : mat) : Prop :=
  n_rows m = rows /\ Forall (fun row => length row = cols) m.

Record invariant (s : KalmanFilter) : Prop := mkInvariant {
  inv_Xi_hat :
    exists landmarks,
      Xi_hat s = zeros 3 1 ++ landmarks /\
      Forall (fun row => length row = 1%nat) landmarks;
  inv_mt_hat : mt_hat s = empty;
  inv_sigma_hat : is_mat 3 3 (sigma_hat s);
  inv_Q_mat : Q_mat s = zeros 3 3
}.

End Kalman.

(** ** The simulator: nusim/nusim.cpp *)

Module Pose2D.
(** turtlelib::Pose2D *)
Record t : Type := mk { x : R; y : R; theta : R }.
End Pose2D.

Module Vector2D.
(** turtlelib::Vector2D *)
Record t : Type := mk { x : R; y : R }.
End Vector2D.

(** Modelled from the spec: [turtlelib::distance] of rigid2d.hpp, which is
    not under src/: the "Euclidean distance" between two points. *)
Definition distance (p1 p2 : Vector2D.t) : R :=
  sqrt ((Vector2D.x p1 - Vector2D.x p2) ^ 2
        + (Vector2D.y p1 - Vector2D.y p2) ^ 2).

(** [v.at(i)] on a [std::vector<double>]. *)
Definition vec_at (v : list R) (i : nat) : outcome R :=
  match nth_error v i with
  | Some a => Ok a
  | None => Throw out_of_range
  end.

Module Nusim.

Import StateExn.
Local Open Scope monad_scope.

(** turtlelib::WheelState *)
Record WheelState : Type := mkWheelState { left : R; right : R }.

(** nuturtlebot_msgs/msg/WheelCommands: two [int32] fields. *)
Record WheelCommands : Type := mkWheelCommands {
  left_velocity : Z;
  right_velocity : Z
}.

(** nuturtlebot_msgs/msg/SensorData, the encoder fields. *)
Record SensorData : Type := mkSensorData {
  left_encoder : Z;
  right_encoder : Z
}.

(** The node's parameters, fixed by the constructor. *)
Record Params : Type := mkParams {
  obstacles_x : list R;
  obstacles_y : list R;
  obstacles_r : R;
  RATE : Z;
  MOTOR_CMD_PER_RAD_SEC : R;
  ENCODER_TICKS_PER_RAD : R;
  SLIP_FRACTION : R;
  INPUT_NOISE : R;
  COLLISION_RADIUS : R
}.

Section Node.

(** The tolerance of [turtlelib::almost_equal]. *)
Variable epsilon : R.

(** The process-wide generator behind [get_random()] and the two
    distributions of <random> drawn from it. *)
Variable Rng : Type.
Variable normal_distribution : R -> R -> Rng -> R * Rng.
Variable uniform_real_distribution : R -> R -> Rng -> R * Rng.

(** [turtlelib::DiffDrive] (diff_drive.hpp, not under src/): the object
    and its forward kinematics, which may update the object. *)
Variable DiffDrive : Type.
Variable forward_kinematics :
  DiffDrive -> Pose2D.t -> WheelState -> Pose2D.t * DiffDrive.

Variable P : Params.

(** The members the callbacks assign, and the generator. *)
Record Nusim : Type := mkNusim {
  step : Z;
  count : Z;
  left_noise : R;
  right_noise : R;
  left_slip : R;
  right_slip : R;
  noisy_wheel_speeds : WheelState;
  slippy_wheel_angles : WheelState;
  true_wheel_angles : WheelState;
  true_wheel_speeds : WheelState;
  true_pose : Pose2D.t;
  ddrive : DiffDrive;
  sensor_data : SensorData;
  random : Rng
}.

Definition set_true_pose (v : Pose2D.t) (s : Nusim) : Nusim :=
  mkNusim (step s) (count s) (left_noise s) (right_noise s) (left_slip s)
    (right_slip s) (noisy_wheel_speeds s) (slippy_wheel_angles s)
    (true_wheel_angles s) (true_wheel_speeds s) v (ddrive s)
    (sensor_data s) (random s).

Definition set_ddrive (v : DiffDrive) (s : Nusim) : Nusim :=
  mkNusim (step s) (count s) (left_noise s) (right_noise s) (left_slip s)
    (right_slip s) (noisy_wheel_speeds s) (slippy_wheel_angles s)
    (true_wheel_angles s) (true_wheel_speeds s) (true_pose s) v
    (sensor_data s) (random s).

Definition set_true_wheel_speeds (v : WheelState) (s : Nusim) : Nusim :=
  mkNusim (step s) (count s) (left_noise s) (right_noise s) (left_slip s)
    (right_slip s) (noisy_wheel_speeds s) (slippy_wheel_angles s)
    (true_wheel_angles s) v (true_pose s) (ddrive s)
    (sensor_data s) (random s).

Definition set_true_wheel_angles (v : WheelState) (s : Nusim) : Nusim :=
  mkNusim (step s) (count s) (left_noise s) (right_noise s) (left_slip s)
    (right_slip s) (noisy_wheel_speeds s) (slippy_wheel_angles s)
    v (true_wheel_speeds s) (true_pose s) (ddrive s)
    (sensor_data s) (random s).

Definition set_noisy_wheel_speeds (v : WheelState) (s : Nusim) : Nusim :=
  mkNusim (step s) (count s) (left_noise s) (right_noise s) (left_slip s)
    (right_slip s) v (slippy_wheel_angles s)
    (true_wheel_angles s) (true_wheel_speeds s) (true_pose s) (ddrive s)
    (sensor_data s) (random s).

Definition set_slippy_wheel_angles (v : WheelState) (s : Nusim) : Nusim :=
  mkNusim (step s) (count s) (left_noise s) (right_noise s) (left_slip s)
    (right_slip s) (noisy_wheel_speeds s) v
    (true_wheel_angles s) (true_wheel_speeds s) (true_pose s) (ddrive s)
    (sensor_data s) (random s).

Definition set_noise (l r : R) (s : Nusim) : Nusim :=
  mkNusim (step s) (count s) l r (left_slip s)
    (right_slip s) (noisy_wheel_speeds s) (slippy_wheel_angles s)
    (true_wheel_angles s) (true_wheel_speeds s) (true_pose s) (ddrive s)
    (sensor_data s) (random s).

Definition set_slip (l r : R) (s : Nusim) : Nusim :=
  mkNusim (step s) (count s) (left_noise s) (right_noise s) l r
    (noisy_wheel_speeds s) (slippy_wheel_angles s)
    (true_wheel_angles s) (true_wheel_speeds s) (true_pose s) (ddrive s)
    (sensor_data s) (random s).

Definition set_sensor_data (v : SensorData) (s : Nusim) : Nusim :=
  mkNusim (step s) (count s) (left_noise s) (right_noise s) (left_slip s)
    (right_slip s) (noisy_wheel_speeds s) (slippy_wheel_angles s)
    (true_wheel_angles s) (true_wheel_speeds s) (true_pose s) (ddrive s)
    v (random s).

Definition set_counters (st c : Z) (s : Nusim) : Nusim :=
  mkNusim st c (left_noise s) (right_noise s) (left_slip s)
    (right_slip s) (noisy_wheel_speeds s) (slippy_wheel_angles s)
    (true_wheel_angles s) (true_wheel_speeds s) (true_pose s) (ddrive s)
    (sensor_data s) (random s).

Definition set_random (g : Rng) (s : Nusim) : Nusim :=
  mkNusim (step s) (count s) (left_noise s) (right_noise s) (left_slip s)
    (right_slip s) (noisy_wheel_speeds s) (slippy_wheel_angles s)
    (true_wheel_angles s) (true_wheel_speeds s) (true_pose s) (ddrive s)
    (sensor_data s) g.

(** One draw: [d(get_random())]. *)
Definition draw (d : Rng -> R * Rng) (s : Nusim) : R * Nusim :=
  let (v, g) := d (random s) in (v, set_random g s).

(** The body of the loop of [detect_collision] for obstacle [i]. *)
Definition collide (i : nat) : M Nusim unit :=
  do ox <- lift (vec_at (obstacles_x P) i) in
  do oy <- lift (vec_at (obstacles_y P) i) in
  do pose <- gets true_pose in
  let p1 := Vector2D.mk ox oy in
  let p2 := Vector2D.mk (Pose2D.x pose) (Pose2D.y pose) in
  let d := distance p1 p2 in
  let dc := d - (obstacles_r P + COLLISION_RADIUS P) in
  if Rle_dec dc 0 then
    let collision_angle :=
      atan2 (Pose2D.y pose - oy) (Pose2D.x pose - ox) in
    let distance_to_move := obstacles_r P + COLLISION_RADIUS P in
    modify (set_true_pose
              (Pose2D.mk (ox + cos collision_angle * distance_to_move)
                         (oy + sin collision_angle * distance_to_move)
                         (Pose2D.theta pose)))
  else ret tt.

(** [Nusim::detect_collision] *)
Definition detect_collision : M Nusim unit :=
  if (0 <? length (obstacles_x P))%nat
  then for_each (seq 0 (length (obstacles_x P))) collide
  else ret tt.

(** [Nusim::wheel_cmd_callback] *)
Definition wheel_cmd_callback (wheel_cmd : WheelCommands) (s : Nusim)
  : Nusim :=
  let left_noise_d := normal_distribution 0 (INPUT_NOISE P) in
  let right_noise_d := normal_distribution 0 (INPUT_NOISE P) in
  let s :=
    set_true_wheel_speeds
      (mkWheelState
         (IZR (left_velocity wheel_cmd) * MOTOR_CMD_PER_RAD_SEC P)
         (IZR (right_velocity wheel_cmd) * MOTOR_CMD_PER_RAD_SEC P)) s in
  let s :=
    if almost_equal epsilon (IZR (left_velocity wheel_cmd)) 0 then
      set_noisy_wheel_speeds
        (mkWheelState (left (true_wheel_speeds s))
                      (right (noisy_wheel_speeds s))) s
    else
      let (n, s) := draw left_noise_d s in
      let s := set_noise n (right_noise s) s in
      set_noisy_wheel_speeds
        (mkWheelState
           (IZR (left_velocity wheel_cmd) * MOTOR_CMD_PER_RAD_SEC P
            + left_noise s)
           (right (noisy_wheel_speeds s))) s in
  let s :=
    if almost_equal epsilon (IZR (right_velocity wheel_cmd)) 0 then
      set_noisy_wheel_speeds
        (mkWheelState (left (noisy_wheel_speeds s))
                      (right (true_wheel_speeds s))) s
    else
      let (n, s) := draw right_noise_d s in
      let s := set_noise (left_noise s) n s in
      set_noisy_wheel_speeds
        (mkWheelState
           (left (noisy_wheel_speeds s))
           (IZR (right_velocity wheel_cmd) * MOTOR_CMD_PER_RAD_SEC P
            + right_noise s)) s in
  if negb (almost_equal epsilon (SLIP_FRACTION P) 0) then
    let slip_d :=
      uniform_real_distribution (- SLIP_FRACTION P) (SLIP_FRACTION P) in
    let (rs, s) := draw slip_d s in
    let s := set_slip (left_slip s) rs s in
    let (ls, s) := draw slip_d s in
    set_slip ls (right_slip s) s
  else s.

(** [Nusim::timer_callback], without the publishing of messages and
    transforms: the wheel angles, the encoder message, the pose, the
    collision check and the two counters ([step] is a [uint64_t]). *)
Definition timer_callback : M Nusim unit :=
  modify (fun s =>
    set_true_wheel_angles
      (mkWheelState
         (left (true_wheel_angles s)
          + left (true_wheel_speeds s) * (1 / IZR (RATE P)))
         (right (true_wheel_angles s)
          + right (true_wheel_speeds s) * (1 / IZR (RATE P)))) s) ;;;
  modify (fun s =>
    set_slippy_wheel_angles
      (mkWheelState
         (left (slippy_wheel_angles s)
          + left (noisy_wheel_speeds s) * (1 + left_slip s)
            * (1 / IZR (RATE P)))
         (right (slippy_wheel_angles s)
          + right (noisy_wheel_speeds s) * (1 + right_slip s)
            * (1 / IZR (RATE P)))) s) ;;;
  modify (fun s =>
    set_sensor_data
      (mkSensorData
         (int_of_double (left (slippy_wheel_angles s)
                         * ENCODER_TICKS_PER_RAD P))
         (int_of_double (right (slippy_wheel_angles s)
                         * ENCODER_TICKS_PER_RAD P))) s) ;;;
  modify (fun s =>
    let (pose, dd) :=
      forward_kinematics (ddrive s) (true_pose s) (true_wheel_angles s) in
    set_true_pose pose (set_ddrive dd s)) ;;;
  detect_collision ;;;
  modify (fun s => set_counters ((step s + 1) mod 2 ^ 64) (count s) s) ;;;
  modify (fun s =>
    if (100 <=? count s)%Z then set_counters (step s) 0 s
    else set_counters (step s) (count s + 1) s).

End Node.

Arguments step {Rng DiffDrive} _.
Arguments count {Rng DiffDrive} _.
Arguments left_noise {Rng DiffDrive} _.
Arguments right_noise {Rng DiffDrive} _.
Arguments left_slip {Rng DiffDrive} _.
Arguments right_slip {Rng DiffDrive} _.
Arguments noisy_wheel_speeds {Rng DiffDrive} _.
Arguments slippy_wheel_angles {Rng DiffDrive} _.
Arguments true_wheel_angles {Rng DiffDrive} _.
Arguments true_wheel_speeds {Rng DiffDrive} _.
Arguments true_pose {Rng DiffDrive} _.
Arguments ddrive {Rng DiffDrive} _.
Arguments sensor_data {Rng DiffDrive} _.
Arguments random {Rng DiffDrive} _.
Arguments mkNusim {Rng DiffDrive}.
Arguments set_true_pose {Rng DiffDrive} v s.
Arguments collide {Rng DiffDrive} P i.
Arguments detect_collision {Rng DiffDrive} P.
Arguments wheel_cmd_callback epsilon {Rng} normal_distribution
  uniform_real_distribution {DiffDrive} P wheel_cmd s.
Arguments timer_callback {Rng DiffDrive} forward_kinematics P.

(** What the simulator holds as ground truth: the true wheel speeds and
    angles, the true pose and the drive that integrates it. *)
Definition ground_truth {Rng DiffDrive : Type} (s : Nusim Rng DiffDrive)
  : WheelState * WheelState * Pose2D.t * DiffDrive :=
  (true_wheel_speeds s, true_wheel_angles s, true_pose s, ddrive s).

(** A computation whose outcome and resulting ground truth are functions
    of the ground truth it starts from. *)
Definition ground_truth_only {Rng DiffDrive : Type}
           (m : M (Nusim Rng DiffDrive) unit) : Prop :=
  forall s s' : Nusim Rng DiffDrive,
    ground_truth s = ground_truth s' ->
    fst (m s) = fst (m s') /\
    ground_truth (snd (m s)) = ground_truth (snd (m s')).

End Nusim.

(** ** Concrete inputs *)

Module Scenario.

Import Kalman.

(** A tolerance for [almost_equal]. *)
Definition tolerance : R := 1 / 10 ^ 12.

(** The measurement of the end-to-end scenario: range 1, bearing 0,
    marker 5. *)
Definition sighting : LandmarkMeasurement := mkLandmarkMeasurement 1 0 5.

(** The same landmark seen again at twice the range. *)
Definition resighting : LandmarkMeasurement := mkLandmarkMeasurement 2 0 5.

(** A turn in place and a standstill. *)
Definition turn : Twist2D := mkTwist2D 1 0 0.
Definition standstill : Twist2D := mkTwist2D 0 0 0.

Import Nusim.

(** A generator that replays a script of standard variates: a normal
    draw is [mean + stddev * z], a uniform draw [a + (b - a) * u]. *)
Definition normal_script (mean stddev : R) (g : list R) : R * list R :=
  match g with
  | z :: g' => (mean + stddev * z, g')
  | [] => (mean, [])
  end.

Definition uniform_script (a b : R) (g : list R) : R * list R :=
  match g with
  | u :: g' => (a + (b - a) * u, g')
  | [] => (a, [])
  end.

(** A drive whose forward kinematics keeps the pose. *)
Definition parked (d : unit) (p : Pose2D.t) (w : WheelState)
  : Pose2D.t * unit := (p, d).

(** One obstacle of radius 1/2 at the origin, a robot of collision
    radius 1/2, unit conversion factors, one tick per second, unit input
    noise and slip up to 1/2. *)
Definition arena : Params :=
  {| obstacles_x := [0];
     obstacles_y := [0];
     obstacles_r := 1 / 2;
     RATE := 1;
     MOTOR_CMD_PER_RAD_SEC := 1;
     ENCODER_TICKS_PER_RAD := 1;
     SLIP_FRACTION := 1 / 2;
     INPUT_NOISE := 1;
     COLLISION_RADIUS := 1 / 2 |}.

(** The node at rest with the robot at (1/2, 0), inside the reach of the
    obstacle, and a script for the generator. *)
Definition at_rest (script : list R) : Nusim (list R) unit :=
  {| step := 0;
     count := 0;
     left_noise := 0;
     right_noise := 0;
     left_slip := 0;
     right_slip := 0;
     noisy_wheel_speeds := mkWheelState 0 0;
     slippy_wheel_angles := mkWheelState 0 0;
     true_wheel_angles := mkWheelState 0 0;
     true_wheel_speeds := mkWheelState 0 0;
     true_pose := Pose2D.mk (1 / 2) 0 0;
     ddrive := tt;
     sensor_data := mkSensorData 0 0;
     random := script |}.

(** The same world without the obstacle. *)
Definition open_field : Params :=
  {| obstacles_x := [];
     obstacles_y := [];
     obstacles_r := 1 / 2;
     RATE := 1;
     MOTOR_CMD_PER_RAD_SEC := 1;
     ENCODER_TICKS_PER_RAD := 1;
     SLIP_FRACTION := 1 / 2;
     INPUT_NOISE := 1;
     COLLISION_RADIUS := 1 / 2 |}.

(** Both wheels commanded forward; the left wheel alone. *)
Definition forward : WheelCommands := mkWheelCommands 1 1.
Definition left_only : WheelCommands := mkWheelCommands 1 0.

End Scenario.

(** ** Proof automation *)

Import Arma Kalman StateExn Nusim Scenario.

Ltac unfold_monad :=
  unfold Xi, dict_count, dict_index in *;
  unfold bind, ret, lift, gets, modify in *.

(** Case analysis on the next fallible or branching operation. *)
Ltac case_op :=
  match goal with
  | |- context [almost_equal ?e ?a ?b] => destruct (almost_equal e a b) eqn:?
  | |- context [elem ?m ?i ?j] => destruct (elem m i j) eqn:?
  | |- context [elem_int ?m ?i ?j] => destruct (elem_int m i j) eqn:?
  | |- context [join_cols ?a ?b] => destruct (join_cols a b) eqn:?
  | |- context [mul ?a ?b] => destruct (mul a b) eqn:?
  | |- context [add ?a ?b] => destruct (add a b) eqn:?
  end.

Ltac case_monad := repeat (cbn; case_op); cbn.

Ltac conjs := repeat match goal with |- _ /\ _ => split end.

(** Case analysis on the tolerance tests and on the draws of a callback. *)
Ltac case_draws :=
  repeat match goal with
         | |- context [almost_equal ?e ?a ?b] => destruct (almost_equal e a b)
         | |- context [match ?d with (_, _) => _ end] =>
             lazymatch d with
             | context [match _ with (_, _) => _ end] => fail
             | _ => destruct d eqn:?
             end
         | _ => progress cbn
         end.

(** ** The measurement type: turtlelib/kalman.cpp *)

Module Landmark.

(** [LandmarkMeasurement::from_cartesian]; [std::pow(_, 2.0)] is the
    square. *)
Definition from_cartesian (_x _y : R) (_marker_id : Z)
  : LandmarkMeasurement :=
  mkLandmarkMeasurement (sqrt (_x ^ 2 + _y ^ 2))
                        (normalize_angle (atan2 _y _x))
                        _marker_id.

(** [LandmarkMeasurement::to_mat] *)
Definition to_mat (m : LandmarkMeasurement) : mat :=
  let z := zeros 2 1 in
  let z := set_elem z 0 0 (r m) in
  set_elem z 1 0 (normalize_angle (phi m)).

End Landmark.

(** ** The landmark index map and the rows it refers to

    What the filter's states keep about [landmarks_dict]: behind every
    stored offset is the row count [n] of [Xi_hat] at the time the landmark
    was appended, narrowed to [int]; the counts are between 5 and the
    current row count and no two identities share one; and [Xi_hat] has two
    rows per identity after the three pose rows. *)
Definition index_invariant (s : KalmanFilter) : Prop :=
  exists counts : gmap Z nat,
    landmarks_dict s = int_of_uword <$> counts /\
    n_rows (Xi_hat s) = (3 + 2 * size counts)%nat /\
    (forall id n, counts !! id = Some n ->
                  (5 <= n <= n_rows (Xi_hat s))%nat) /\
    (forall id id' n, counts !! id = Some n -> counts !! id' = Some n ->
                      id = id').

(** ** Runs of the simulator's timer *)

(** [n] runs of [Nusim::timer_callback] in a row; a run that throws ends
    the sequence. *)
Definition run_ticks {Rng DiffDrive : Type}
           (forward_kinematics :
              DiffDrive -> Pose2D.t -> WheelState -> Pose2D.t * DiffDrive)
           (P : Params) (n : nat)
  : StateExn.M (Nusim.Nusim Rng DiffDrive) unit :=
  for_each (seq 0 n) (fun _ => timer_callback forward_kinematics P).

(** ** The circle node: nuturtle_control/circle.cpp *)

Module Circle.

(** geometry_msgs/msg/Vector3 and geometry_msgs/msg/Twist *)
Record Vector3 : Type := mkVector3 { x : R; y : R; z : R }.
Record Twist : Type := mkTwist { linear : Vector3; angular : Vector3 }.

(** The request of nuturtle_control/srv/Control. *)
Record ControlRequest : Type := mkControlRequest {
  velocity : R;
  radius : R
}.

(** The node: its flag, its twist message, and the messages it has
    published on cmd_vel, oldest first. *)
Record Circle : Type := mkCircle {
  STOPPED : bool;
  twist_msg : Twist;
  cmd_vel : list Twist
}.

(** A default-constructed message is all zero. *)
Definition Twist_zero : Twist := mkTwist (mkVector3 0 0 0) (mkVector3 0 0 0).

(** [Circle::Circle()] *)
Definition Circle_new : Circle := mkCircle true Twist_zero [].

(** [cmd_vel_pub->publish(twist_msg)] *)
Definition publish (s : Circle) : Circle :=
  mkCircle (STOPPED s) (twist_msg s) (cmd_vel s ++ [twist_msg s]).

(** [Circle::control_callback]: all six components are assigned. *)
Definition control_callback (request : ControlRequest) (s : Circle)
  : Circle :=
  mkCircle false
    (mkTwist (mkVector3 (velocity request * radius request) 0 0)
             (mkVector3 0 0 (velocity request)))
    (cmd_vel s).

(** [Circle::reverse_callback] *)
Definition reverse_callback (s : Circle) : Circle :=
  if negb (STOPPED s) then
    let t := twist_msg s in
    mkCircle (STOPPED s)
      (mkTwist (mkVector3 (- x (linear t)) (y (linear t)) (z (linear t)))
               (mkVector3 (x (angular t)) (y (angular t))
                          (- z (angular t))))
      (cmd_vel s)
  else s.

(** [Circle::stop_callback] *)
Definition stop_callback (s : Circle) : Circle :=
  publish (mkCircle true Twist_zero (cmd_vel s)).

(** [Circle::timer_callback] *)
Definition timer_callback (s : Circle) : Circle :=
  if negb (STOPPED s) then publish s else s.

(** What the node reacts to: the three services and the timer. *)
Inductive event : Type :=
| Control (request : ControlRequest)
| Reverse
| Stop
| Timer.

Definition handle (s : Circle) (e : event) : Circle :=
  match e with
  | Control request => control_callback request s
  | Reverse => reverse_callback s
  | Stop => stop_callback s
  | Timer => timer_callback s
  end.

Definition run (events : list event) (s : Circle) : Circle :=
  fold_left handle events s.

(** The events that give no new command: reversals and timer ticks. *)
Definition passive (e : event) : bool :=
  match e with
  | Reverse | Timer => true
  | Control _ | Stop => false
  end.

(** A twist that drives a circle of radius [rad] at angular speed
    [omega]. *)
Definition circling (rad omega : R) : Twist :=
  mkTwist (mkVector3 (omega * rad) 0 0) (mkVector3 0 0 omega).

End Circle.

(** ** The odometry callback of the slam node: nuslam/slam.cpp *)

Module Slam.

Import StateExn.
Local Open Scope monad_scope.

(** sensor_msgs/msg/JointState, the fields the callback reads. *)
Record JointState : Type := mkJointState {
  position : list R;
  velocity : list R
}.

Section Node.

(** [turtlelib::DiffDrive] (diff_drive.hpp, not under src/): the object
    and the two member functions the callback calls. *)
Variable DiffDrive : Type.
Variable body_twist : DiffDrive -> WheelState -> Twist2D * DiffDrive.
Variable forward_kinematics :
  DiffDrive -> Pose2D.t -> WheelState -> Pose2D.t * DiffDrive.

(** The members the callback assigns. *)
Record Slam : Type := mkSlam {
  pose_now : Pose2D.t;
  wheel_angles_now : WheelState;
  wheel_speeds_now : WheelState;
  Vb_now : Twist2D;
  ddrive : DiffDrive
}.

Definition set_wheel_angles_now (v : WheelState) (s : Slam) : Slam :=
  mkSlam (pose_now s) v (wheel_speeds_now s) (Vb_now s) (ddrive s).

Definition set_wheel_speeds_now (v : WheelState) (s : Slam) : Slam :=
  mkSlam (pose_now s) (wheel_angles_now s) v (Vb_now s) (ddrive s).

(** [Slam::joint_states_callback] *)
Definition joint_states_callback (js_data : JointState) : M Slam unit :=
  do p0 <- lift (vec_at (position js_data) 0) in
  modify (fun s =>
    set_wheel_angles_now
      (mkWheelState p0 (right (wheel_angles_now s))) s) ;;;
  do p1 <- lift (vec_at (position js_data) 1) in
  modify (fun s =>
    set_wheel_angles_now
      (mkWheelState (left (wheel_angles_now s)) p1) s) ;;;
  do v0 <- lift (vec_at (velocity js_data) 0) in
  modify (fun s =>
    set_wheel_speeds_now
      (mkWheelState v0 (right (wheel_speeds_now s))) s) ;;;
  do v1 <- lift (vec_at (velocity js_data) 1) in
  modify (fun s =>
    set_wheel_speeds_now
      (mkWheelState (left (wheel_speeds_now s)) v1) s) ;;;
  modify (fun s =>
    let (V, dd) := body_twist (ddrive s) (wheel_speeds_now s) in
    mkSlam (pose_now s) (wheel_angles_now s) (wheel_speeds_now s) V dd) ;;;
  modify (fun s =>
    let (pose, dd) :=
      forward_kinematics (ddrive s) (pose_now s) (wheel_angles_now s) in
    mkSlam pose (wheel_angles_now s) (wheel_speeds_now s) (Vb_now s) dd).

End Node.

Arguments pose_now {DiffDrive} _.
Arguments wheel_angles_now {DiffDrive} _.
Arguments wheel_speeds_now {DiffDrive} _.
Arguments Vb_now {DiffDrive} _.
Arguments ddrive {DiffDrive} _.
Arguments mkSlam {DiffDrive}.
Arguments joint_states_callback {DiffDrive} body_twist forward_kinematics
  js_data.

End Slam.

(** ** More concrete inputs *)

Module Scenario2.

(** Both wheels commanded to stand still. *)
Definition halt : WheelCommands := mkWheelCommands 0 0.

(** A control request: angular velocity 1 on a circle of radius 2. *)
Definition request : Circle.ControlRequest := Circle.mkControlRequest 1 2.

(** A JointState message with one position and no velocity. *)
Definition short_message : Slam.JointState := Slam.mkJointState [1] [].

(** A drive whose body twist is zero, and the slam node at the origin. *)
Definition no_twist (d : unit) (w : WheelState) : Twist2D * unit :=
  (standstill, d).

Definition slam_at_origin : Slam.Slam unit :=
  Slam.mkSlam (Pose2D.mk 0 0 0) (mkWheelState 0 0) (mkWheelState 0 0)
              standstill tt.

End Scenario2.

(** * Properties *)

(** ** Scalar helpers *)

Section Scalars.

Lemma normalize_angle_range (a : R) :
  - PI < normalize_angle a <= PI.
Proof.
  unfold normalize_angle.
  assert (Hpi := PI_RGT_0).
  set (q := (PI - a) / (2 * PI)).
  destruct (archimed q) as [Hup1 Hup2].
  rewrite minus_IZR.
  assert (Hq : q * (2 * PI) = PI - a) by (unfold q; field; lra).
  split; nra.
Qed.

Lemma turns_unique (k : Z) (a : R) :
  - PI < a <= PI -> - PI < a - 2 * PI * IZR k <= PI -> k = 0%Z.
Proof.
  intros Ha Hk. assert (Hpi := PI_RGT_0).
  assert (H1 : (-1 < k)%Z).
  { apply lt_IZR. nra. }
  assert (H2 : (k < 1)%Z).
  { apply lt_IZR. nra. }
  lia.
Qed.

Lemma normalize_angle_id (a : R) :
  - PI < a <= PI -> normalize_angle a = a.
Proof.
  intros Ha. pose proof (normalize_angle_range a) as Hr.
  unfold normalize_angle in *.
  rewrite (turns_unique _ a Ha Hr). lra.
Qed.

Lemma trig_turns (k : Z) (a : R) :
  cos (a - 2 * PI * IZR k) = cos a /\ sin (a - 2 * PI * IZR k) = sin a.
Proof.
  destruct (Z_le_gt_dec 0 k) as [Hk | Hk].
  - rewrite <- (Z2Nat.id k Hk), <- INR_IZR_INZ.
    set (n := Z.to_nat k).
    rewrite <- (cos_period (a - 2 * PI * INR n) n).
    rewrite <- (sin_period (a - 2 * PI * INR n) n).
    split; f_equal; lra.
  - assert (Hk' : (0 <= - k)%Z) by lia.
    replace (IZR k) with (- IZR (- k)) by (rewrite opp_IZR; lra).
    rewrite <- (Z2Nat.id (- k) Hk'), <- INR_IZR_INZ.
    set (n := Z.to_nat (- k)).
    rewrite <- (cos_period a n), <- (sin_period a n).
    split; f_equal; lra.
Qed.

Lemma cos_normalize_angle (a : R) : cos (normalize_angle a) = cos a.
Proof. apply trig_turns. Qed.

Lemma sin_normalize_angle (a : R) : sin (normalize_angle a) = sin a.
Proof. apply trig_turns. Qed.

Lemma normalize_angle_0 : normalize_angle 0 = 0.
Proof. apply normalize_angle_id. assert (H := PI_RGT_0). lra. Qed.

Lemma normalize_angle_1 : normalize_angle 1 = 1.
Proof.
  apply normalize_angle_id. assert (H := PI2_1). assert (H' := PI_RGT_0). lra.
Qed.

Lemma almost_equal_refl (epsilon a : R) :
  0 < epsilon -> almost_equal epsilon a a = true.
Proof.
  intros He. unfold almost_equal.
  destruct (Rlt_dec _ _) as [_ | Hn]; [reflexivity | ].
  exfalso. apply Hn. rewrite Rminus_diag, Rabs_R0. exact He.
Qed.

Lemma almost_equal_far (epsilon a b : R) :
  epsilon <= Rabs (a - b) -> almost_equal epsilon a b = false.
Proof.
  intros He. unfold almost_equal.
  destruct (Rlt_dec _ _) as [Hl | _]; [lra | reflexivity].
Qed.

Lemma almost_equal_int (epsilon : R) (z : Z) :
  0 < epsilon <= 1 ->
  almost_equal epsilon (IZR z) 0 = if Z.eqb z 0 then true else false.
Proof.
  intros He. destruct (Z.eqb_spec z 0) as [-> | Hz].
  - apply almost_equal_refl. lra.
  - apply almost_equal_far. rewrite Rminus_0_r.
    assert (H : (1 <= Z.abs z)%Z) by lia.
    apply IZR_le in H. rewrite abs_IZR in H. lra.
Qed.

End Scalars.

Section Atan2.

Lemma sqrt_slope (x y : R) :
  x <> 0 -> sqrt (1 + (y / x)²) = sqrt (x ^ 2 + y ^ 2) / Rabs x.
Proof.
  intros Hx.
  assert (Hax : 0 < Rabs x) by (apply Rabs_pos_lt; exact Hx).
  assert (Hd : 0 <= sqrt (x ^ 2 + y ^ 2)) by apply sqrt_pos.
  apply sqrt_lem_1.
  - unfold Rsqr. nra.
  - apply Rmult_le_pos; [exact Hd | left; apply Rinv_0_lt_compat; exact Hax].
  - unfold Rsqr.
    assert (Hs : sqrt (x ^ 2 + y ^ 2) * sqrt (x ^ 2 + y ^ 2) = x ^ 2 + y ^ 2)
      by (apply sqrt_sqrt; nra).
    assert (Ha2 : Rabs x * Rabs x = x * x).
    { unfold Rabs. destruct (Rcase_abs x); ring. }
    transitivity ((sqrt (x ^ 2 + y ^ 2) * sqrt (x ^ 2 + y ^ 2))
                  / (Rabs x * Rabs x)).
    + field. lra.
    + rewrite Hs, Ha2. field. exact Hx.
Qed.

Lemma norm_pos (x y : R) :
  x <> 0 \/ y <> 0 -> 0 < sqrt (x ^ 2 + y ^ 2).
Proof. intros H. apply sqrt_lt_R0. destruct H; nra. Qed.

(** [atan2 y x] is the polar angle of the point [(x, y)]. *)
Lemma atan2_polar (x y : R) :
  x <> 0 \/ y <> 0 ->
  cos (atan2 y x) = x / sqrt (x ^ 2 + y ^ 2) /\
  sin (atan2 y x) = y / sqrt (x ^ 2 + y ^ 2).
Proof.
  intros Hxy. pose proof (norm_pos x y Hxy) as Hd.
  unfold atan2.
  destruct (Rlt_dec 0 x) as [Hx | Hx].
  - rewrite cos_atan, sin_atan, sqrt_slope by lra.
    rewrite Rabs_right by lra. split; field; lra.
  - destruct (Rlt_dec x 0) as [Hx' | Hx'].
    + assert (Hc : cos (atan (y / x)) = - x / sqrt (x ^ 2 + y ^ 2)).
      { rewrite cos_atan, sqrt_slope by lra.
        rewrite Rabs_left by lra. field; lra. }
      assert (Hs : sin (atan (y / x)) = - y / sqrt (x ^ 2 + y ^ 2)).
      { rewrite sin_atan, sqrt_slope by lra.
        rewrite Rabs_left by lra. field; lra. }
      destruct (Rle_dec 0 y) as [Hy | Hy].
      * rewrite neg_cos, neg_sin, Hc, Hs. split; field; lra.
      * rewrite cos_minus, sin_minus, cos_PI, sin_PI, Hc, Hs.
        split; field; lra.
    + assert (x = 0) by lra. subst x.
      replace (0 ^ 2 + y ^ 2) with (y²) in * by (unfold Rsqr; ring).
      rewrite sqrt_Rsqr_abs in *.
      destruct (Rlt_dec 0 y) as [Hy | Hy].
      * rewrite cos_PI2, sin_PI2, Rabs_right by lra. split; field; lra.
      * destruct (Rlt_dec y 0) as [Hy' | Hy'].
        -- rewrite cos_neg, sin_neg, cos_PI2, sin_PI2, Rabs_left by lra.
           split; field; lra.
        -- exfalso. destruct Hxy; lra.
Qed.

Lemma atan2_scale (k x y : R) :
  0 < k -> atan2 (k * y) (k * x) = atan2 y x.
Proof.
  intros Hk. unfold atan2.
  assert (Hq : x <> 0 -> k * y / (k * x) = y / x) by (intros; field; lra).
  destruct (Rlt_dec 0 x) as [Hx | Hx];
    destruct (Rlt_dec 0 (k * x)) as [Hkx | Hkx]; try nra.
  - rewrite Hq by lra. reflexivity.
  - destruct (Rlt_dec x 0) as [Hx' | Hx'];
      destruct (Rlt_dec (k * x) 0) as [Hkx' | Hkx']; try nra.
    + rewrite Hq by lra.
      destruct (Rle_dec 0 y); destruct (Rle_dec 0 (k * y)); try nra;
        reflexivity.
    + destruct (Rlt_dec 0 y); destruct (Rlt_dec 0 (k * y)); try nra;
        try reflexivity.
      destruct (Rlt_dec y 0); destruct (Rlt_dec (k * y) 0); try nra;
        reflexivity.
Qed.

End Atan2.

(** ** The estimator *)


Lemma join_cols_app (a b c : mat) : join_cols a b = Ok c -> c = a ++ b.
Proof.
  unfold join_cols. destruct a as [ | ra a]; [intros [= <-]; reflexivity | ].
  destruct b as [ | rb b]; [intros [= <-]; symmetry; apply app_nil_r | ].
  destruct (Nat.eqb _ _); [intros [= <-]; reflexivity | discriminate].
Qed.

Lemma is_mat_3_3 (m : mat) :
  is_mat 3 3 m ->
  exists a b c d e f g h i, m = [[a; b; c]; [d; e; f]; [g; h; i]].
Proof.
  intros [Hr Hc]. unfold n_rows in Hr.
  destruct m as [ | r1 [ | r2 [ | r3 [ | ? ?]]]]; try discriminate.
  inversion Hc as [ | ? ? H1 Hc1]; subst.
  inversion Hc1 as [ | ? ? H2 Hc2]; subst.
  inversion Hc2 as [ | ? ? H3 _]; subst.
  destruct r1 as [ | a [ | b [ | c [ | ? ?]]]]; try discriminate.
  destruct r2 as [ | d [ | e [ | f [ | ? ?]]]]; try discriminate.
  destruct r3 as [ | g [ | h [ | i [ | ? ?]]]]; try discriminate.
  by exists a, b, c, d, e, f, g, h, i.
Qed.

Lemma is_mat_3_3_intro (a b c d e f g h i : R) :
  is_mat 3 3 [[a; b; c]; [d; e; f]; [g; h; i]].
Proof. split; [reflexivity | repeat constructor]. Qed.

Section KalmanFrames.

Variable epsilon : R.

(** [predict] assigns [qt_hat] and [sigma_hat] only. *)
Lemma predict_frame (V : Twist2D) (s : KalmanFilter) :
  Xi_hat (snd (predict epsilon V s)) = Xi_hat s /\
  mt_hat (snd (predict epsilon V s)) = mt_hat s /\
  Q_mat (snd (predict epsilon V s)) = Q_mat s /\
  landmarks_dict (snd (predict epsilon V s)) = landmarks_dict s.
Proof.
  unfold predict. unfold_monad. case_monad; auto.
Qed.

(** [update_measurements] assigns [Xi_hat] and [landmarks_dict] only. *)
Lemma update_measurements_frame (m : LandmarkMeasurement) (s : KalmanFilter) :
  qt_hat (snd (update_measurements m s)) = qt_hat s /\
  mt_hat (snd (update_measurements m s)) = mt_hat s /\
  sigma_hat (snd (update_measurements m s)) = sigma_hat s /\
  Q_mat (snd (update_measurements m s)) = Q_mat s.
Proof.
  unfold update_measurements. unfold_monad. cbv beta.
  destruct (landmarks_dict s !! marker_id m); case_monad; auto.
Qed.

(** A known identity: nothing happens. *)
Lemma update_measurements_known (m : LandmarkMeasurement) (s : KalmanFilter) :
  is_Some (landmarks_dict s !! marker_id m) ->
  update_measurements m s = (Ok tt, s).
Proof.
  intros [i Hi]. unfold update_measurements. unfold_monad.
  cbv beta. rewrite Hi. reflexivity.
Qed.

(** An unseen identity: two rows are appended to [Xi_hat], computed from
    the pose rows of [Xi_hat], and the row count after the append is
    what the index map stores. *)
Lemma update_measurements_unseen (m : LandmarkMeasurement) (s : KalmanFilter)
      (th x y : R) (landmarks : mat) :
  landmarks_dict s !! marker_id m = None ->
  Xi_hat s = [th] :: [x] :: [y] :: landmarks ->
  let mx_j := x + r m * cos (normalize_angle (phi m + th)) in
  let my_j := y + r m * sin (normalize_angle (phi m + th)) in
  update_measurements m s =
    (Ok tt,
     set_landmarks_dict
       (<[marker_id m := int_of_uword (n_rows (Xi_hat s) + 2)]>
          (landmarks_dict s))
       (set_Xi_hat (Xi_hat s ++ [[mx_j]; [my_j]]) s)).
Proof.
  intros Hid HXi. unfold update_measurements. unfold_monad.
  cbv beta. rewrite Hid. cbn. rewrite HXi. cbn.
  rewrite length_app. reflexivity.
Qed.

Lemma update_measurements_appends (m : LandmarkMeasurement)
      (s : KalmanFilter) :
  exists rows,
    Xi_hat (snd (update_measurements m s)) = Xi_hat s ++ rows /\
    Forall (fun row => length row = 1%nat) rows.
Proof.
  unfold update_measurements. unfold_monad. cbv beta.
  destruct (landmarks_dict s !! marker_id m); case_monad;
    try (exists []; split; [symmetry; apply app_nil_r | constructor]).
  eexists. split; [eapply join_cols_app; eassumption | ].
  repeat constructor.
Qed.

(** After a normal return the identity is in the index map. *)
Lemma update_measurements_records (m : LandmarkMeasurement)
      (s : KalmanFilter) :
  fst (update_measurements m s) = Ok tt ->
  is_Some (landmarks_dict (snd (update_measurements m s)) !! marker_id m).
Proof.
  unfold update_measurements. unfold_monad. cbv beta.
  destruct (landmarks_dict s !! marker_id m) as [i | ] eqn:Hid; cbn.
  - intros _. rewrite Hid. eauto.
  - case_monad; try discriminate. intros _.
    rewrite lookup_insert_eq. eauto.
Qed.

(** What [update] adds to [update_measurements] reads the state and
    assigns nothing. *)
Lemma update_step_state (m : LandmarkMeasurement) (s : KalmanFilter) :
  snd (update_step m s) = snd (update_measurements m s).
Proof.
  pose proof (update_measurements_records m s) as Hrec.
  unfold update_step. unfold bind at 1.
  destruct (update_measurements m s) as [[[] | e] s1]; [ | reflexivity].
  destruct (Hrec eq_refl) as [i Hi]. cbn in Hi |- *.
  unfold_monad. cbv beta. rewrite Hi. case_monad; reflexivity.
Qed.

Lemma update_frame (ms : list LandmarkMeasurement) (s : KalmanFilter) :
  qt_hat (snd (update ms s)) = qt_hat s /\
  mt_hat (snd (update ms s)) = mt_hat s /\
  sigma_hat (snd (update ms s)) = sigma_hat s /\
  Q_mat (snd (update ms s)) = Q_mat s /\
  exists rows,
    Xi_hat (snd (update ms s)) = Xi_hat s ++ rows /\
    Forall (fun row => length row = 1%nat) rows.
Proof.
  revert s. induction ms as [ | m ms IH]; intros s.
  - cbn. conjs; try reflexivity.
    exists []. split; [symmetry; apply app_nil_r | constructor].
  - cbn [update]. unfold bind.
    pose proof (update_step_state m s) as Hst.
    pose proof (update_measurements_frame m s) as (Hq & Hm & Hs & HQ).
    pose proof (update_measurements_appends m s) as (rows & HXi & Hrows).
    destruct (update_step m s) as [[[] | e] s1]; cbn [snd] in Hst; subst s1.
    + destruct (IH (snd (update_measurements m s)))
        as (Hq' & Hm' & Hs' & HQ' & rows' & HXi' & Hrows').
      cbv beta iota. conjs; try congruence.
      exists (rows ++ rows'). split.
      * rewrite HXi', HXi, app_assoc. reflexivity.
      * apply Forall_app; split; assumption.
    + cbv beta iota. conjs; try assumption. eauto.
Qed.

(** The invariant holds along every run. *)
Lemma invariant_new : invariant KalmanFilter_new.
Proof.
  split; cbn; try reflexivity.
  - exists []. split; [reflexivity | constructor].
  - apply is_mat_3_3_intro.
Qed.

Lemma invariant_predict (V : Twist2D) (s : KalmanFilter) :
  invariant s -> invariant (snd (predict epsilon V s)).
Proof.
  intros [HXi Hmt Hsig HQ].
  pose proof (predict_frame V s) as (FXi & Fmt & FQ & _).
  split; [rewrite FXi; exact HXi | congruence | | congruence].
  destruct HXi as (landmarks & HXi & _).
  destruct (is_mat_3_3 _ Hsig) as (a & b & c & d & e & f & g & h & i & Hs).
  unfold predict. unfold_monad.
  destruct (almost_equal _ _ _); cbv beta; rewrite HXi; cbn;
    rewrite Hs, HQ; cbn; apply is_mat_3_3_intro.
Qed.

Lemma invariant_Xi_hat_app (s s' : KalmanFilter) (rows : mat) :
  invariant s ->
  qt_hat s' = qt_hat s -> mt_hat s' = mt_hat s ->
  sigma_hat s' = sigma_hat s -> Q_mat s' = Q_mat s ->
  Xi_hat s' = Xi_hat s ++ rows ->
  Forall (fun row => length row = 1%nat) rows ->
  invariant s'.
Proof.
  intros [(landmarks & HXi & Hl) Hmt Hsig HQ] Eq Em Es EQ EXi Hrows.
  split; [ | congruence | congruence | congruence].
  exists (landmarks ++ rows). split.
  - rewrite EXi, HXi, app_assoc. reflexivity.
  - apply Forall_app; split; assumption.
Qed.

Theorem reachable_invariant (s : KalmanFilter) :
  reachable epsilon s -> invariant s.
Proof.
  induction 1 as [ | s V _ IH | s m _ IH | s ms _ IH].
  - apply invariant_new.
  - apply invariant_predict, IH.
  - pose proof (update_measurements_frame m s) as (Hq & Hm & Hs & HQ).
    pose proof (update_measurements_appends m s) as (rows & HXi & Hrows).
    eapply invariant_Xi_hat_app; eassumption.
  - pose proof (update_frame ms s)
      as (Hq & Hm & Hs & HQ & rows & HXi & Hrows).
    eapply invariant_Xi_hat_app; eassumption.
Qed.

End KalmanFrames.

(** ** The estimator: the claims *)


Lemma tolerance_bounds : 0 < tolerance <= 1.
Proof. unfold tolerance. lra. Qed.

Lemma update_single (m : LandmarkMeasurement) (s : KalmanFilter) :
  snd (update [m] s) = snd (update_measurements m s).
Proof.
  rewrite <- update_step_state. cbn [update]. unfold bind.
  destruct (update_step m s) as [[[] | e] s1]; reflexivity.
Qed.

(** The state the scenario's first call leaves. *)
Lemma sighting_state :
  update_measurements sighting KalmanFilter_new =
    (Ok tt,
     {| qt_hat := zeros 3 1;
        mt_hat := empty;
        Xi_hat := [[0]; [0]; [0]; [1]; [0]];
        sigma_hat := zeros 3 3;
        Q_mat := zeros 3 3;
        landmarks_dict := {[ 5%Z := 5%Z ]} |}).
Proof.
  rewrite (update_measurements_unseen sighting KalmanFilter_new 0 0 0 [])
    by (reflexivity || apply lookup_empty).
  cbn. replace (0 + 0) with 0 by lra.
  rewrite normalize_angle_0, cos_0, sin_0.
  replace (0 + 1 * 1) with 1 by lra. replace (0 + 1 * 0) with 0 by lra.
  reflexivity.
Qed.

(** C1: the correct step applies no Kalman gain, innovation or posterior
    update.  Whatever the measurements, [update] leaves [sigma_hat] and
    [qt_hat] as they were and keeps every existing row of [Xi_hat]; seeing
    landmark 5 again at range 2 after it was initialised at range 1 leaves
    the whole state as it was. *)
Theorem update_applies_no_correction :
  (forall (ms : list LandmarkMeasurement) (s : KalmanFilter),
      sigma_hat (snd (update ms s)) = sigma_hat s /\
      qt_hat (snd (update ms s)) = qt_hat s /\
      firstn (n_rows (Xi_hat s)) (Xi_hat (snd (update ms s))) = Xi_hat s) /\
  (let s1 := snd (update [sighting] KalmanFilter_new) in
   snd (update [resighting] s1) = s1).
Proof.
  split.
  - intros ms s.
    destruct (update_frame ms s) as (Hq & _ & Hs & _ & rows & HXi & _).
    split; [exact Hs | split; [exact Hq | ]].
    rewrite HXi. unfold n_rows. rewrite firstn_app, Nat.sub_diag, firstn_all.
    cbn. apply app_nil_r.
  - cbv zeta. rewrite !update_single, sighting_state. cbn [snd].
    rewrite update_measurements_known; [reflexivity | ].
    cbn. rewrite lookup_singleton_eq. eauto.
Qed.

(** C2: the covariance does not grow with the state.  The call that
    initialises landmark 5 on a new filter leaves [Xi_hat] with 5 rows
    while [sigma_hat] and [Q_mat] stay 3 by 3. *)
Theorem covariance_not_grown :
  let s := snd (update [sighting] KalmanFilter_new) in
  n_rows (Xi_hat s) = 5%nat /\
  n_rows (sigma_hat s) = 3%nat /\ n_cols (sigma_hat s) = 3%nat /\
  n_rows (Q_mat s) = 3%nat /\ n_cols (Q_mat s) = 3%nat.
Proof.
  cbv zeta. rewrite update_single, sighting_state. cbn. auto.
Qed.

(** C3: the offset stored for a new landmark is the row count after the
    append, two past the landmark's own rows.  On a new filter landmark 5
    is stored in rows 3 and 4 and indexed at 5, which is no row of
    [Xi_hat]: the lookup that [update] makes next ends the call with
    Armadillo's out-of-range error. *)
Theorem landmark_offset_out_of_bounds :
  let s := snd (update_measurements sighting KalmanFilter_new) in
  landmarks_dict s !! 5%Z = Some 5%Z /\
  n_rows (Xi_hat s) = 5%nat /\
  elem (Xi_hat s) 3 0 = Ok 1 /\
  elem (Xi_hat s) 4 0 = Ok 0 /\
  elem_int (Xi_hat s) 5 0 = Throw out_of_range /\
  fst (update [sighting] KalmanFilter_new) = Throw out_of_range.
Proof.
  cbv zeta. rewrite sighting_state. cbn [snd Xi_hat landmarks_dict].
  conjs; reflexivity.
Qed.

(** An element access that fails throws [std::out_of_range]. *)
Lemma elem_throws (a : mat) (i j : nat) (e : exn) :
  elem a i j = Throw e -> e = out_of_range.
Proof.
  unfold elem. destruct (nth_error a i) as [row | ];
    [destruct (nth_error row j) | ]; congruence.
Qed.

Lemma elem_int_throws (a : mat) (i : Z) (j : nat) (e : exn) :
  elem_int a i j = Throw e -> e = out_of_range.
Proof.
  unfold elem_int. destruct (i <? 0)%Z; [congruence | apply elem_throws].
Qed.

(** The loop body of [update] never ends normally: [mj] is a 1 by 2 row
    and [mj(1, 0)] is outside it, when nothing threw before. *)
Lemma update_step_outcome (m : LandmarkMeasurement) (s : KalmanFilter) :
  fst (update_step m s)
  = match fst (update_measurements m s) with
    | Ok _ => Throw out_of_range
    | Throw e => Throw e
    end.
Proof.
  unfold update_step, bind.
  destruct (update_measurements m s) as [[[] | e] s1]; cbn [fst];
    [ | reflexivity].
  unfold_monad. cbv beta.
  destruct (landmarks_dict s1 !! marker_id m) as [i | ];
    cbv beta iota; case_monad; f_equal;
    eauto using elem_throws, elem_int_throws.
Qed.

Lemma update_step_throws (m : LandmarkMeasurement) (s : KalmanFilter) :
  fst (update_step m s) <> Ok tt.
Proof.
  rewrite update_step_outcome.
  destruct (fst (update_measurements m s)); discriminate.
Qed.

Lemma update_cons_state (m : LandmarkMeasurement)
      (ms : list LandmarkMeasurement) (s : KalmanFilter) :
  fst (update (m :: ms) s) = fst (update_step m s) /\
  snd (update (m :: ms) s) = snd (update_measurements m s).
Proof.
  rewrite <- update_step_state. cbn [update]. unfold bind.
  pose proof (update_step_throws m s) as Hne.
  destruct (update_step m s) as [[[] | e] s1]; [by destruct Hne | auto].
Qed.

Section KalmanClaims.

Variable epsilon : R.

Lemma reachable_Xi_hat (s : KalmanFilter) :
  reachable epsilon s ->
  exists landmarks, Xi_hat s = [0] :: [0] :: [0] :: landmarks.
Proof.
  intros Hs. destruct (reachable_invariant epsilon s Hs) as [HXi _ _ _].
  destruct HXi as (landmarks & HXi & _). exists landmarks. exact HXi.
Qed.

(** C4: the first-sighting scenario ends in an exception.  On a filter
    whose pose rows in Xi are (0, 0, 0) and which has not seen landmark
    5, the call with the single measurement (r=1, phi=0, id=5) appends
    the rows (1, 0) to Xi and stores for key 5 the row count after the
    append, which is no row of Xi; reading the landmark back through
    that offset is what [update] does next, and the call ends in
    Armadillo's out-of-range error.  A second call with the same
    measurement throws again and leaves the state as it is. *)
Theorem first_sighting_call_throws (s : KalmanFilter) (landmarks : mat) :
  Xi_hat s = zeros 3 1 ++ landmarks ->
  landmarks_dict s !! 5%Z = None ->
  (Z.of_nat (n_rows (Xi_hat s)) + 2 < 2 ^ 31)%Z ->
  let s1 := snd (update [sighting] s) in
  let s2 := snd (update [sighting] s1) in
  let offset := Z.of_nat (n_rows (Xi_hat s1)) in
  fst (update [sighting] s) = Throw out_of_range /\
  Xi_hat s1 = Xi_hat s ++ [[1]; [0]] /\
  landmarks_dict s1 !! 5%Z = Some offset /\
  elem_int (Xi_hat s1) offset 0 = Throw out_of_range /\
  fst (update [sighting] s1) = Throw out_of_range /\
  s2 = s1.
Proof.
  intros HXi Hid Hfit. cbv zeta.
  destruct (update_cons_state sighting [] s) as [Hfst Hsnd].
  rewrite Hfst, Hsnd, update_step_outcome.
  rewrite (update_measurements_unseen sighting s 0 0 0 landmarks Hid HXi).
  cbn [fst snd sighting r phi marker_id].
  replace (0 + 0) with 0 by lra.
  rewrite normalize_angle_0, cos_0, sin_0.
  replace (0 + 1 * 1) with 1 by lra. replace (0 + 1 * 0) with 0 by lra.
  set (s1 := set_landmarks_dict _ _).
  assert (Hrows : n_rows (Xi_hat s1) = (n_rows (Xi_hat s) + 2)%nat).
  { unfold s1, n_rows. cbn. apply length_app. }
  assert (Hoff : int_of_uword (n_rows (Xi_hat s) + 2)
                 = Z.of_nat (n_rows (Xi_hat s1))).
  { rewrite Hrows. unfold int_of_uword.
    rewrite Z.mod_small by lia. lia. }
  assert (Hkey : landmarks_dict s1 !! 5%Z
                 = Some (Z.of_nat (n_rows (Xi_hat s1)))).
  { rewrite <- Hoff. unfold s1. cbn. apply lookup_insert_eq. }
  assert (Hknown : update_measurements sighting s1 = (Ok tt, s1)).
  { apply update_measurements_known. cbn [marker_id sighting].
    rewrite Hkey. eauto. }
  destruct (update_cons_state sighting [] s1) as [Hfst1 Hsnd1].
  rewrite Hfst1, Hsnd1, update_step_outcome, Hknown.
  conjs; try reflexivity; [exact Hkey | ].
  unfold elem_int, elem.
  destruct (Z.ltb_spec (Z.of_nat (n_rows (Xi_hat s1))) 0); [reflexivity | ].
  rewrite Nat2Z.id.
  replace (nth_error (Xi_hat s1) (n_rows (Xi_hat s1))) with (@None (list R));
    [reflexivity | ].
  symmetry. apply nth_error_None. unfold n_rows. lia.
Qed.

(** C9: no operation writes the pose rows of [Xi_hat].  In every
    reachable state they are zero; [predict] leaves [Xi_hat] as it is,
    [update] only appends rows, and a new landmark is placed from those
    zero rows whatever [predict] stored in [qt_hat]. *)
Theorem pose_block_never_written (s : KalmanFilter) :
  reachable epsilon s ->
  firstn 3 (Xi_hat s) = zeros 3 1 /\
  (forall V, Xi_hat (snd (predict epsilon V s)) = Xi_hat s) /\
  (forall ms, exists rows, Xi_hat (snd (update ms s)) = Xi_hat s ++ rows) /\
  (forall m,
      landmarks_dict s !! marker_id m = None ->
      Xi_hat (snd (update_measurements m s)) =
        Xi_hat s ++ [[0 + r m * cos (normalize_angle (phi m + 0))];
                     [0 + r m * sin (normalize_angle (phi m + 0))]]).
Proof.
  intros Hs. destruct (reachable_Xi_hat s Hs) as (landmarks & HXi).
  conjs.
  - rewrite HXi. reflexivity.
  - intros V. apply predict_frame.
  - intros ms.
    destruct (update_frame ms s) as (_ & _ & _ & _ & rows & Hrows & _).
    exists rows. exact Hrows.
  - intros m Hid.
    rewrite (update_measurements_unseen m s 0 0 0 landmarks Hid HXi).
    reflexivity.
Qed.

(** C10: [mt_hat] is never assigned: in every reachable state
    [map_prediction] returns the default-constructed empty matrix. *)
Theorem map_prediction_always_empty (s : KalmanFilter) :
  reachable epsilon s -> map_prediction s = empty.
Proof.
  intros Hs. unfold map_prediction.
  apply (inv_mt_hat s (reachable_invariant epsilon s Hs)).
Qed.

End KalmanClaims.

Lemma first_sighting_call_throws_witness :
  let s1 := snd (update [sighting] KalmanFilter_new) in
  fst (update [sighting] KalmanFilter_new) = Throw out_of_range /\
  landmarks_dict s1 !! 5%Z = Some 5%Z /\
  elem_int (Xi_hat s1) 5 0 = Throw out_of_range /\
  fst (update [sighting] s1) = Throw out_of_range.
Proof.
  destruct (first_sighting_call_throws KalmanFilter_new [])
    as (H1 & HXi & Hkey & Hrow & H2 & _).
  - reflexivity.
  - apply lookup_empty.
  - cbn. lia.
  - cbv zeta in *. rewrite HXi in Hkey, Hrow. auto.
Defined.

Lemma pose_block_never_written_witness :
  firstn 3 (Xi_hat (snd (predict tolerance turn KalmanFilter_new)))
    = zeros 3 1.
Proof.
  apply (pose_block_never_written tolerance
           (snd (predict tolerance turn KalmanFilter_new))).
  apply reachable_predict, reachable_new.
Defined.

Lemma map_prediction_always_empty_witness :
  map_prediction (snd (update [sighting] KalmanFilter_new)) = empty.
Proof.
  apply (map_prediction_always_empty tolerance).
  apply reachable_update, reachable_new.
Defined.

Section ZeroTwist.

Variable epsilon : R.
Hypothesis epsilon_pos : 0 < epsilon.

(** What a zero twist does in a reachable state: [Xi_hat] stays, the
    covariance becomes [sigma_hat + Q_mat] entry by entry, and the pose
    prediction is set from the (zero) pose rows of [Xi_hat]. *)
Lemma predict_standstill (s : KalmanFilter) :
  invariant s ->
  let s' := snd (predict epsilon standstill s) in
  fst (predict epsilon standstill s) = Ok tt /\
  Xi_hat s' = Xi_hat s /\
  add (sigma_hat s) (Q_mat s) = Ok (sigma_hat s') /\
  qt_hat s' = [[0]; [0 + 0 * cos 0]; [0 + 0 * sin 0]].
Proof.
  intros [(landmarks & HXi & _) _ Hsig HQ]. cbv zeta.
  destruct (is_mat_3_3 _ Hsig) as (a & b & c & d & e & f & g & h & i & Hs).
  split; [ | split; [apply predict_frame | ]].
  - unfold predict. unfold_monad. cbn [standstill thetadot xdot].
    rewrite almost_equal_refl by exact epsilon_pos.
    cbv beta. rewrite HXi. cbn. rewrite Hs, HQ. reflexivity.
  - unfold predict. unfold_monad. cbn [standstill thetadot xdot].
    rewrite almost_equal_refl by exact epsilon_pos.
    cbv beta. rewrite HXi. cbn. rewrite Hs, HQ. cbn.
    split; [ | reflexivity].
    unfold dot. cbn. repeat f_equal; ring.
Qed.

End ZeroTwist.

(** C5: a zero twist does not keep the pose prediction.  After a turn in
    place by one radian on a new filter the predicted heading is 1; a
    [predict] with the zero twist then sets it to 0, although [Xi_hat] is
    unchanged and the covariance is unchanged ([Q_mat] is zero). *)
Theorem zero_twist_resets_heading (epsilon : R) :
  0 < epsilon <= 1 ->
  let s1 := snd (predict epsilon turn KalmanFilter_new) in
  let s2 := snd (predict epsilon standstill s1) in
  elem (pose_prediction s1) 0 0 = Ok 1 /\
  elem (pose_prediction s2) 0 0 = Ok (0 : R) /\
  Xi_hat s2 = Xi_hat s1 /\
  add (sigma_hat s1) (Q_mat s1) = Ok (sigma_hat s2).
Proof.
  intros [Hpos Hle]. cbv zeta.
  assert (Hinv : invariant (snd (predict epsilon turn KalmanFilter_new))).
  { apply invariant_predict, invariant_new. }
  destruct (predict_standstill epsilon Hpos _ Hinv) as (_ & HXi & Hsig & Hq).
  conjs; [ | unfold pose_prediction; rewrite Hq; reflexivity | exact HXi
         | exact Hsig].
  unfold pose_prediction, predict. unfold_monad. cbn [turn thetadot xdot].
  rewrite almost_equal_far by (rewrite Rminus_0_r, Rabs_R1; exact Hle).
  cbn. replace (0 + 1) with 1 by lra. rewrite normalize_angle_1. reflexivity.
Qed.

Lemma zero_twist_resets_heading_witness :
  elem (pose_prediction (snd (predict tolerance turn KalmanFilter_new))) 0 0
    = Ok 1 /\
  elem (pose_prediction
          (snd (predict tolerance standstill
                  (snd (predict tolerance turn KalmanFilter_new))))) 0 0
    = Ok (0 : R).
Proof.
  pose proof (zero_twist_resets_heading tolerance tolerance_bounds) as H.
  split; apply H.
Defined.

Section Returns.

Variable epsilon : R.

(** In a state of the invariant's shape [predict] returns normally. *)
Lemma predict_returns (V : Twist2D) (s : KalmanFilter) :
  invariant s -> fst (predict epsilon V s) = Ok tt.
Proof.
  intros [(landmarks & HXi & _) _ Hsig HQ].
  destruct (is_mat_3_3 _ Hsig) as (a & b & c & d & e & f & g & h & i & Hs).
  unfold predict. unfold_monad.
  destruct (almost_equal _ _ _); cbv beta; rewrite HXi; cbn;
    rewrite Hs, HQ; reflexivity.
Qed.

(** ... and so does [update_measurements]. *)
Lemma update_measurements_returns (m : LandmarkMeasurement)
      (s : KalmanFilter) :
  invariant s -> fst (update_measurements m s) = Ok tt.
Proof.
  intros [(landmarks & HXi & _) _ _ _].
  destruct (landmarks_dict s !! marker_id m) as [i | ] eqn:Hid.
  - rewrite update_measurements_known by eauto. reflexivity.
  - rewrite (update_measurements_unseen m s 0 0 0 landmarks Hid HXi).
    reflexivity.
Qed.

End Returns.

(** A stale offset, once in bounds, addresses another landmark: after
    landmark 5 and then landmark 6 are initialised, the offset stored for
    landmark 5 is 5, and rows 5 and 6 of [Xi_hat] hold landmark 6. *)
Example stale_offset_addresses_next_landmark :
  let other := mkLandmarkMeasurement 2 0 6 in
  let s1 := snd (update_measurements sighting KalmanFilter_new) in
  let s2 := snd (update_measurements other s1) in
  landmarks_dict s2 !! 5%Z = Some 5%Z /\
  elem_int (Xi_hat s2) 5 0 = Ok 2 /\
  elem_int (Xi_hat s2) (5 + 1) 0 = Ok 0.
Proof.
  cbv zeta. rewrite sighting_state. cbn [snd].
  erewrite (update_measurements_unseen _ _ 0 0 0 [[1]; [0]]);
    [ | reflexivity | reflexivity].
  cbn. replace (0 + 0) with 0 by lra.
  rewrite normalize_angle_0, cos_0, sin_0.
  replace (0 + 2 * 1) with 2 by lra. replace (0 + 2 * 0) with 0 by lra.
  conjs; reflexivity.
Qed.

(** ** The simulator *)


(** A loop over [l1 ++ l2] is the loop over [l1] followed by the loop over
    [l2]. *)
Lemma for_each_app {S : Type} (l1 l2 : list nat) (body : nat -> M S unit)
      (s : S) :
  for_each (l1 ++ l2) body s
  = bind (for_each l1 body) (fun _ => for_each l2 body) s.
Proof.
  revert s. induction l1 as [ | i l1 IH]; intros s; [reflexivity | ].
  cbn [app for_each]. unfold bind in *.
  destruct (body i s) as [[[] | e] s1]; [apply IH | reflexivity].
Qed.

Lemma for_each_ext {S : Type} (l : list nat) (body1 body2 : nat -> M S unit) :
  (forall i, In i l -> forall s, body1 i s = body2 i s) ->
  forall s, for_each l body1 s = for_each l body2 s.
Proof.
  induction l as [ | i l IH]; intros Hext s; [reflexivity | ].
  cbn [for_each]. unfold bind. rewrite (Hext i) by (left; reflexivity).
  destruct (body2 i s) as [[[] | e] s1]; [ | reflexivity].
  apply IH. intros j Hj. apply Hext. right. exact Hj.
Qed.

Section Collision.

Context {Rng DiffDrive : Type}.
Variable P : Params.

Local Abbreviation obstacle ox oy := (Vector2D.mk ox oy).
Local Abbreviation centre p := (Vector2D.mk (Pose2D.x p) (Pose2D.y p)).

Lemma distance_sym_sq (ox oy x y : R) :
  distance (obstacle ox oy) (Vector2D.mk x y)
  = sqrt ((x - ox) ^ 2 + (y - oy) ^ 2).
Proof. unfold distance. cbn. f_equal. ring. Qed.

Lemma distance_nonneg (p1 p2 : Vector2D.t) : 0 <= distance p1 p2.
Proof. apply sqrt_pos. Qed.

(** The robot put at distance [reach] from the obstacle, at the angle
    [a]. *)
Lemma distance_on_circle (ox oy a reach : R) :
  0 <= reach ->
  distance (obstacle ox oy)
           (Vector2D.mk (ox + cos a * reach) (oy + sin a * reach)) = reach.
Proof.
  intros Hreach. rewrite distance_sym_sq.
  apply sqrt_lem_1; [nra | exact Hreach | ].
  pose proof (sin2_cos2 a) as Hsc. unfold Rsqr in Hsc.
  replace ((ox + cos a * reach - ox) ^ 2 + (oy + sin a * reach - oy) ^ 2)
    with (reach * reach * (sin a * sin a + cos a * cos a)) by ring.
  rewrite Hsc. ring.
Qed.

(** ... and seen from the obstacle at the bearing it had. *)
Lemma bearing_on_circle (dx dy reach : R) :
  let a := atan2 dy dx in
  0 < sqrt (dx ^ 2 + dy ^ 2) <= reach ->
  atan2 (sin a * reach) (cos a * reach) = a.
Proof.
  intros a [Hd Hreach].
  assert (Hne : dx <> 0 \/ dy <> 0).
  { destruct (Req_dec dx 0) as [-> | ]; [ | by left].
    destruct (Req_dec dy 0) as [-> | ]; [ | by right].
    exfalso. replace (0 ^ 2 + 0 ^ 2) with 0 in Hd by ring.
    rewrite sqrt_0 in Hd. lra. }
  destruct (atan2_polar dx dy Hne) as [Hc Hs]. fold a in Hc, Hs.
  rewrite Hc, Hs.
  set (n := sqrt (dx ^ 2 + dy ^ 2)) in *.
  replace (dy / n * reach) with (reach / n * dy) by (field; lra).
  replace (dx / n * reach) with (reach / n * dx) by (field; lra).
  apply atan2_scale. apply Rdiv_lt_0_compat; lra.
Qed.

(** The loop body for obstacle [i] at [(ox, oy)]: when the distance [d]
    from the obstacle to the robot is at most the sum of the two radii,
    the robot is placed at exactly that sum from the obstacle, its
    heading kept and (for [d > 0]) its bearing from the obstacle kept;
    when [d] exceeds the sum, nothing changes. *)
Lemma collide_resolves (i : nat) (ox oy : R) (s : Nusim Rng DiffDrive) :
  vec_at (obstacles_x P) i = Ok ox ->
  vec_at (obstacles_y P) i = Ok oy ->
  let pose := true_pose s in
  let d := distance (obstacle ox oy) (centre pose) in
  let reach := obstacles_r P + COLLISION_RADIUS P in
  let s' := snd (collide P i s) in
  let pose' := true_pose s' in
  fst (collide P i s) = Ok tt /\
  s' = set_true_pose pose' s /\
  (d <= reach ->
     distance (obstacle ox oy) (centre pose') = reach /\
     Pose2D.theta pose' = Pose2D.theta pose /\
     (0 < d ->
        atan2 (Pose2D.y pose' - oy) (Pose2D.x pose' - ox)
        = atan2 (Pose2D.y pose - oy) (Pose2D.x pose - ox))) /\
  (reach < d -> s' = s).
Proof.
  intros Hox Hoy. cbv zeta.
  unfold collide, bind, lift, gets, modify, ret.
  rewrite Hox, Hoy. cbv beta iota.
  destruct s as [st c ln rn ls rs nws swa twa tws [x y th] dd sd g].
  cbn [true_pose Pose2D.x Pose2D.y Pose2D.theta].
  pose proof (distance_nonneg (obstacle ox oy) (Vector2D.mk x y)) as Hd0.
  destruct (Rle_dec _ _) as [Hle | Hgt];
    cbn [fst snd true_pose set_true_pose Pose2D.x Pose2D.y Pose2D.theta
         step count left_noise right_noise left_slip right_slip
         noisy_wheel_speeds slippy_wheel_angles true_wheel_angles
         true_wheel_speeds ddrive sensor_data random].
  - conjs; try reflexivity; [ | intros; lra].
    intros Hreach. conjs; try reflexivity.
    + apply distance_on_circle. lra.
    + intros Hd. rewrite distance_sym_sq in Hd, Hreach.
      replace (oy + sin (atan2 (y - oy) (x - ox))
                    * (obstacles_r P + COLLISION_RADIUS P) - oy)
        with (sin (atan2 (y - oy) (x - ox))
              * (obstacles_r P + COLLISION_RADIUS P)) by ring.
      replace (ox + cos (atan2 (y - oy) (x - ox))
                    * (obstacles_r P + COLLISION_RADIUS P) - ox)
        with (cos (atan2 (y - oy) (x - ox))
              * (obstacles_r P + COLLISION_RADIUS P)) by ring.
      apply bearing_on_circle. lra.
  - conjs; try reflexivity. intros; lra.
Qed.

(** With as many y coordinates as x coordinates, which the constructor
    asserts, the collision check returns normally. *)
Lemma collide_returns (i : nat) (s : Nusim Rng DiffDrive) :
  (i < length (obstacles_x P))%nat ->
  length (obstacles_x P) = length (obstacles_y P) ->
  fst (collide P i s) = Ok tt.
Proof.
  intros Hi Hlen. unfold collide, bind, lift, gets, modify, ret, vec_at.
  destruct (nth_error (obstacles_x P) i) as [ox | ] eqn:Hx;
    [ | apply nth_error_None in Hx; lia].
  destruct (nth_error (obstacles_y P) i) as [oy | ] eqn:Hy;
    [ | apply nth_error_None in Hy; lia].
  cbv beta iota. destruct (Rle_dec _ _); reflexivity.
Qed.

Lemma detect_collision_returns (s : Nusim Rng DiffDrive) :
  length (obstacles_x P) = length (obstacles_y P) ->
  fst (detect_collision P s) = Ok tt.
Proof.
  intros Hlen. unfold detect_collision.
  destruct (_ <? _)%nat; [ | reflexivity].
  assert (Hall : Forall (fun i => (i < length (obstacles_x P))%nat)
                   (seq 0 (length (obstacles_x P)))).
  { apply Forall_forall. intros i Hi%in_seq. lia. }
  revert s.
  induction Hall as [ | i l Hi _ IH]; intros s; cbn [for_each];
    [reflexivity | ].
  unfold bind. pose proof (collide_returns i s Hi Hlen) as Hc.
  destruct (collide P i s) as [[[] | e] s1]; cbn in Hc;
    [apply IH | discriminate].
Qed.

End Collision.

Section CollisionOrder.

Context {Rng DiffDrive : Type}.

Local Abbreviation obstacle ox oy := (Vector2D.mk ox oy).
Local Abbreviation centre p := (Vector2D.mk (Pose2D.x p) (Pose2D.y p)).

(** The loop over the first [n] obstacles does not look at the ones
    declared after them. *)
Lemma for_each_collide_prefix (P P' : Params) (ox oy : R) (n : nat)
      (s : Nusim Rng DiffDrive) :
  obstacles_x P = obstacles_x P' ++ [ox] ->
  obstacles_y P = obstacles_y P' ++ [oy] ->
  length (obstacles_x P') = length (obstacles_y P') ->
  obstacles_r P = obstacles_r P' ->
  COLLISION_RADIUS P = COLLISION_RADIUS P' ->
  n = length (obstacles_x P') ->
  for_each (seq 0 n) (collide P) s = detect_collision P' s.
Proof.
  intros Hx Hy Hlen Hr Hc ->.
  transitivity (for_each (seq 0 (length (obstacles_x P'))) (collide P') s).
  - apply for_each_ext. intros i Hi%in_seq s1.
    unfold collide, vec_at. rewrite Hx, Hy, Hr, Hc.
    rewrite !nth_error_app1 by lia. reflexivity.
  - unfold detect_collision.
    destruct (length (obstacles_x P')); reflexivity.
Qed.

(** C7: the collision resolver, obstacle by obstacle in declaration
    order.  Let the obstacle at [(ox, oy)] be the last one declared, and
    let [before] be the state the resolver leaves when run on the
    obstacles declared before it.  The resolver returns normally, and
    the state it leaves is [before] with a new pose: when the distance
    [d] from the obstacle to the robot in [before] is at most the sum of
    the two radii, the robot is at exactly that sum from the obstacle,
    its heading kept and (for [d > 0]) its bearing from the obstacle
    kept; when [d] exceeds the sum, the state is [before].  With no
    obstacle the resolver changes nothing. *)
Theorem detect_collision_resolves_in_order (P P' : Params) (ox oy : R)
        (s : Nusim Rng DiffDrive) :
  obstacles_x P = obstacles_x P' ++ [ox] ->
  obstacles_y P = obstacles_y P' ++ [oy] ->
  length (obstacles_x P') = length (obstacles_y P') ->
  obstacles_r P = obstacles_r P' ->
  COLLISION_RADIUS P = COLLISION_RADIUS P' ->
  let before := snd (detect_collision P' s) in
  let after := snd (detect_collision P s) in
  let d := distance (obstacle ox oy) (centre (true_pose before)) in
  let reach := obstacles_r P + COLLISION_RADIUS P in
  fst (detect_collision P s) = Ok tt /\
  after = set_true_pose (true_pose after) before /\
  (d <= reach ->
     distance (obstacle ox oy) (centre (true_pose after)) = reach /\
     Pose2D.theta (true_pose after) = Pose2D.theta (true_pose before) /\
     (0 < d ->
        atan2 (Pose2D.y (true_pose after) - oy)
              (Pose2D.x (true_pose after) - ox)
        = atan2 (Pose2D.y (true_pose before) - oy)
                (Pose2D.x (true_pose before) - ox))) /\
  (reach < d -> after = before) /\
  (obstacles_x P' = [] -> before = s).
Proof.
  intros Hx Hy Hlen Hr Hc. cbv zeta.
  set (n := length (obstacles_x P')).
  assert (Hrun : detect_collision P s
                 = collide P n (snd (detect_collision P' s))).
  { unfold detect_collision at 1.
    rewrite Hx, length_app. cbn [length]. fold n.
    replace (0 <? n + 1)%nat with true
      by (symmetry; apply Nat.ltb_lt; lia).
    cbv iota. rewrite seq_app, for_each_app.
    cbn [seq Nat.add for_each]. unfold bind.
    rewrite (for_each_collide_prefix P P' ox oy n s Hx Hy Hlen Hr Hc eq_refl).
    pose proof (detect_collision_returns P' s Hlen) as Hok.
    destruct (detect_collision P' s) as [[[] | e] s1]; cbn [fst] in Hok;
      [ | discriminate].
    cbn [snd]. destruct (collide P n s1) as [[[] | e] s2]; reflexivity. }
  assert (Hox : vec_at (obstacles_x P) n = Ok ox).
  { unfold vec_at. rewrite Hx, nth_error_app2 by (unfold n; lia).
    unfold n. rewrite Nat.sub_diag. reflexivity. }
  assert (Hoy : vec_at (obstacles_y P) n = Ok oy).
  { unfold vec_at. rewrite Hy, nth_error_app2 by (unfold n; lia).
    unfold n. rewrite Hlen, Nat.sub_diag. reflexivity. }
  rewrite Hrun.
  destruct (collide_resolves P n ox oy (snd (detect_collision P' s)) Hox Hoy)
    as (Hok & Hst & Hin & Hout).
  conjs; [exact Hok | exact Hst | exact Hin | exact Hout | ].
  intros Hnone. unfold detect_collision. rewrite Hnone. reflexivity.
Qed.

End CollisionOrder.

Section Actuation.

Context {Rng DiffDrive : Type}.
Variable epsilon : R.
Variable normal_distribution : R -> R -> Rng -> R * Rng.
Variable uniform_real_distribution : R -> R -> Rng -> R * Rng.
Variable P : Params.

Local Abbreviation callback :=
  (wheel_cmd_callback (DiffDrive := DiffDrive) epsilon normal_distribution
     uniform_real_distribution P).

(** The command callback assigns the true wheel speeds from the command
    alone and leaves the rest of the ground truth as it is. *)
Lemma wheel_cmd_callback_ground_truth (cmd : WheelCommands)
      (s : Nusim Rng DiffDrive) :
  ground_truth (callback cmd s)
  = (mkWheelState (IZR (left_velocity cmd) * MOTOR_CMD_PER_RAD_SEC P)
                  (IZR (right_velocity cmd) * MOTOR_CMD_PER_RAD_SEC P),
     true_wheel_angles s, true_pose s, ddrive s).
Proof.
  unfold wheel_cmd_callback, draw, ground_truth. case_draws; reflexivity.
Qed.

(** C8: a wheel whose command is zero gets no noise: its noisy speed is
    its true speed.  A wheel whose command is not zero gets the commanded
    speed plus its own draw from the normal distribution with mean 0 and
    parameter [INPUT_NOISE]; the right wheel's draw comes after the left
    wheel's, from the generator as the left draw left it. *)
Theorem idle_wheel_noise_free (cmd : WheelCommands)
        (s : Nusim Rng DiffDrive) :
  0 < epsilon <= 1 ->
  let s' := callback cmd s in
  let K := MOTOR_CMD_PER_RAD_SEC P in
  let left_draw := normal_distribution 0 (INPUT_NOISE P) (random s) in
  let g := if (left_velocity cmd =? 0)%Z then random s else snd left_draw in
  let right_draw := normal_distribution 0 (INPUT_NOISE P) g in
  true_wheel_speeds s'
    = mkWheelState (IZR (left_velocity cmd) * K)
                   (IZR (right_velocity cmd) * K) /\
  (left_velocity cmd = 0%Z ->
     left (noisy_wheel_speeds s') = left (true_wheel_speeds s')) /\
  (right_velocity cmd = 0%Z ->
     right (noisy_wheel_speeds s') = right (true_wheel_speeds s')) /\
  (left_velocity cmd <> 0%Z ->
     left (noisy_wheel_speeds s')
     = IZR (left_velocity cmd) * K + fst left_draw) /\
  (right_velocity cmd <> 0%Z ->
     right (noisy_wheel_speeds s')
     = IZR (right_velocity cmd) * K + fst right_draw).
Proof.
  intros Heps. cbv zeta.
  unfold wheel_cmd_callback, draw.
  rewrite !(almost_equal_int epsilon _ Heps).
  destruct (Z.eqb_spec (left_velocity cmd) 0) as [Hl | Hl];
    destruct (Z.eqb_spec (right_velocity cmd) 0) as [Hr | Hr];
    case_draws; conjs; try reflexivity; intros; try congruence;
    cbn in *;
    repeat (match goal with H : _ = (_, _) |- _ => rewrite H end;
            cbn [fst snd]);
    reflexivity.
Qed.

End Actuation.

Section GroundTruth.

Context {Rng DiffDrive : Type}.
Variable forward_kinematics :
  DiffDrive -> Pose2D.t -> WheelState -> Pose2D.t * DiffDrive.
Variable P : Params.

Implicit Types s : Nusim Rng DiffDrive.
Implicit Types m k : M (Nusim Rng DiffDrive) unit.

Local Abbreviation ground_truth_only :=
  (Nusim.ground_truth_only (Rng := Rng) (DiffDrive := DiffDrive)).

Lemma ground_truth_eq s s' :
  ground_truth s = ground_truth s' <->
  true_wheel_speeds s = true_wheel_speeds s' /\
  true_wheel_angles s = true_wheel_angles s' /\
  true_pose s = true_pose s' /\
  ddrive s = ddrive s'.
Proof.
  unfold ground_truth. split.
  - intros [= -> -> -> ->]. auto.
  - intros (-> & -> & -> & ->). reflexivity.
Qed.

Lemma ground_truth_only_bind m k :
  ground_truth_only m -> ground_truth_only k ->
  ground_truth_only (bind m (fun _ => k)).
Proof.
  intros Hm Hk s s' H. unfold bind.
  destruct (Hm s s' H) as [Ho Hg].
  destruct (m s) as [[[] | e] s1], (m s') as [[[] | e'] s1'];
    cbn in Ho, Hg; try discriminate.
  - apply Hk, Hg.
  - auto.
Qed.

Lemma ground_truth_only_modify
      (f : Nusim Rng DiffDrive -> Nusim Rng DiffDrive) :
  (forall s s',
      ground_truth s = ground_truth s' ->
      ground_truth (f s) = ground_truth (f s')) ->
  ground_truth_only (modify f).
Proof. intros Hf s s' H. split; [reflexivity | apply Hf, H]. Qed.

Lemma ground_truth_only_ret :
  ground_truth_only (ret tt).
Proof. intros s s' H. auto. Qed.

(** The collision check reads and assigns the true pose only. *)
Lemma ground_truth_only_collide (i : nat) : ground_truth_only (collide P i).
Proof.
  intros s s' H. pose proof H as (Hs & Ha & Hp & Hd)%ground_truth_eq.
  unfold collide, bind, lift, gets, modify, ret.
  destruct (vec_at (obstacles_x P) i); [ | auto].
  destruct (vec_at (obstacles_y P) i); [ | auto].
  cbv beta iota. rewrite Hp.
  destruct (Rle_dec _ _); [ | auto].
  split; [reflexivity | ].
  apply ground_truth_eq. cbn. auto.
Qed.

Lemma ground_truth_only_detect_collision :
  ground_truth_only (detect_collision P).
Proof.
  unfold detect_collision.
  destruct (_ <? _)%nat; [ | apply ground_truth_only_ret].
  induction (seq 0 (length (obstacles_x P))) as [ | i l IH]; cbn [for_each].
  - apply ground_truth_only_ret.
  - apply ground_truth_only_bind; [apply ground_truth_only_collide | exact IH].
Qed.

(** The tick computes the new ground truth from the old ground truth
    alone: noise, slip, the noisy speeds and the generator play no part. *)
Lemma ground_truth_only_timer_callback :
  ground_truth_only (timer_callback forward_kinematics P).
Proof.
  unfold timer_callback.
  repeat first
    [ apply ground_truth_only_bind
    | apply ground_truth_only_detect_collision
    | apply ground_truth_only_modify;
      intros s s' (Hs & Ha & Hp & Hd)%ground_truth_eq;
      apply ground_truth_eq; cbn; rewrite ?Hs, ?Ha, ?Hp, ?Hd;
      repeat match goal with
             | |- context [if ?b then _ else _] => destruct b
             | |- context [match ?d with (_, _) => _ end] => destruct d
             end;
      cbn; auto ].
Qed.

(** The collision check assigns the true pose and nothing else. *)
Lemma collide_state (i : nat) s :
  snd (collide P i s) = set_true_pose (true_pose (snd (collide P i s))) s.
Proof.
  unfold collide, bind, lift, gets, modify, ret.
  destruct (vec_at (obstacles_x P) i); [ | by destruct s].
  destruct (vec_at (obstacles_y P) i); [ | by destruct s].
  cbv beta iota. destruct (Rle_dec _ _); [reflexivity | by destruct s].
Qed.

Lemma for_each_collide_state (l : list nat) s :
  snd (for_each l (collide P) s)
  = set_true_pose (true_pose (snd (for_each l (collide P) s))) s.
Proof.
  revert s. induction l as [ | i l IH]; intros s; cbn [for_each].
  - by destruct s.
  - unfold bind. pose proof (collide_state i s) as Hi.
    destruct (collide P i s) as [[[] | e] s1]; cbn [snd] in Hi |- *.
    + etransitivity; [apply IH | ].
      generalize (true_pose (snd (for_each l (collide P) s1))). intros p.
      rewrite Hi. reflexivity.
    + exact Hi.
Qed.

Lemma detect_collision_state s :
  snd (detect_collision P s)
  = set_true_pose (true_pose (snd (detect_collision P s))) s.
Proof.
  unfold detect_collision.
  destruct (_ <? _)%nat; [apply for_each_collide_state | by destruct s].
Qed.

(** The state a tick leaves: new wheel angles and encoder message, some
    pose and drive, the counters; exception or not. *)
Lemma timer_callback_state s :
  let dt := 1 / IZR (RATE P) in
  let true_angles :=
    mkWheelState
      (left (true_wheel_angles s) + left (true_wheel_speeds s) * dt)
      (right (true_wheel_angles s) + right (true_wheel_speeds s) * dt) in
  let slippy_angles :=
    mkWheelState
      (left (slippy_wheel_angles s)
       + left (noisy_wheel_speeds s) * (1 + left_slip s) * dt)
      (right (slippy_wheel_angles s)
       + right (noisy_wheel_speeds s) * (1 + right_slip s) * dt) in
  let encoders :=
    mkSensorData
      (int_of_double (left slippy_angles * ENCODER_TICKS_PER_RAD P))
      (int_of_double (right slippy_angles * ENCODER_TICKS_PER_RAD P)) in
  exists st c pose dd,
    snd (timer_callback forward_kinematics P s)
    = mkNusim st c (left_noise s) (right_noise s) (left_slip s)
        (right_slip s) (noisy_wheel_speeds s) slippy_angles true_angles
        (true_wheel_speeds s) pose dd encoders (random s).
Proof.
  cbv zeta. unfold timer_callback.
  unfold bind at 1 2 3 4. unfold modify at 1 2 3 4. cbv beta iota.
  match goal with
  | |- context [bind (detect_collision P) ?k ?x] =>
      set (before := x); set (rest := k)
  end.
  unfold bind at 1.
  pose proof (detect_collision_state before) as Hdc.
  destruct (detect_collision P before) as [[[] | e] s3]; cbn [snd] in Hdc.
  - unfold rest, bind, modify. cbv beta iota. cbn [snd].
    rewrite Hdc. unfold before.
    destruct (forward_kinematics _ _ _). cbn.
    destruct (100 <=? _)%Z; cbn; eauto.
  - cbn [snd]. rewrite Hdc. unfold before.
    destruct (forward_kinematics _ _ _); cbn; eauto.
Qed.

End GroundTruth.

Section NoiseAndSlip.

Context {Rng DiffDrive : Type}.
Variable epsilon : R.
Variables normal_distribution normal_distribution' : R -> R -> Rng -> R * Rng.
Variables uniform_real_distribution uniform_real_distribution'
  : R -> R -> Rng -> R * Rng.
Variable forward_kinematics :
  DiffDrive -> Pose2D.t -> WheelState -> Pose2D.t * DiffDrive.
Variable P : Params.

(** The slip fractions after a command: two draws between the bounds
    [- SLIP_FRACTION] and [SLIP_FRACTION] when slip is enabled, the old
    values otherwise. *)
Lemma wheel_cmd_callback_slip (cmd : WheelCommands)
      (s : Nusim Rng DiffDrive) :
  let s1 := wheel_cmd_callback epsilon normal_distribution
              uniform_real_distribution P cmd s in
  let slip_d :=
    uniform_real_distribution (- SLIP_FRACTION P) (SLIP_FRACTION P) in
  if almost_equal epsilon (SLIP_FRACTION P) 0
  then left_slip s1 = left_slip s /\ right_slip s1 = right_slip s
  else exists g g',
      right_slip s1 = fst (slip_d g) /\ left_slip s1 = fst (slip_d g').
Proof.
  cbv zeta. unfold wheel_cmd_callback, draw.
  destruct (almost_equal epsilon (SLIP_FRACTION P) 0); cbn [negb].
  - case_draws; auto.
  - case_draws;
      match goal with
      | H1 : uniform_real_distribution _ _ ?g1 = _,
        H2 : uniform_real_distribution _ _ ?g2 = _ |- _ =>
          first [ exists g1, g2; rewrite H1, H2; split; reflexivity
                | exists g2, g1; rewrite H1, H2; split; reflexivity ]
      end.
Qed.

(** The noisy speeds after a command: the true speed for a wheel whose
    command passes the zero test, the commanded speed plus a normal draw
    otherwise. *)
Lemma wheel_cmd_callback_noise (cmd : WheelCommands)
      (s : Nusim Rng DiffDrive) :
  let s1 := wheel_cmd_callback epsilon normal_distribution
              uniform_real_distribution P cmd s in
  let noise_d := normal_distribution 0 (INPUT_NOISE P) in
  (if almost_equal epsilon (IZR (left_velocity cmd)) 0
   then left (noisy_wheel_speeds s1) = left (true_wheel_speeds s1)
   else exists g,
       left (noisy_wheel_speeds s1)
       = IZR (left_velocity cmd) * MOTOR_CMD_PER_RAD_SEC P
         + fst (noise_d g)) /\
  (if almost_equal epsilon (IZR (right_velocity cmd)) 0
   then right (noisy_wheel_speeds s1) = right (true_wheel_speeds s1)
   else exists g,
       right (noisy_wheel_speeds s1)
       = IZR (right_velocity cmd) * MOTOR_CMD_PER_RAD_SEC P
         + fst (noise_d g)).
Proof.
  cbv zeta. unfold wheel_cmd_callback, draw.
  destruct (almost_equal epsilon (IZR (left_velocity cmd)) 0);
    destruct (almost_equal epsilon (IZR (right_velocity cmd)) 0);
    case_draws; split; try reflexivity;
    match goal with
    | H : normal_distribution _ _ ?g = (?v, _) |- context [_ + ?v] =>
        exists g; rewrite H; reflexivity
    end.
Qed.

(** C6, as the code has it: the true wheel speed is the commanded speed,
    with no noise, and the ground truth after a tick (wheel angles, pose,
    drive, and whether the tick throws) is the same whatever the
    generator draws and whatever noise and slip are stored.  The noise
    sample is in the noisy wheel speed only, and the slip fraction
    multiplies that speed in the wheel angles from which the encoder
    message is computed. *)
Theorem ground_truth_free_of_noise_and_slip (cmd : WheelCommands)
        (s s' : Nusim Rng DiffDrive) :
  ground_truth s = ground_truth s' ->
  let s1 := wheel_cmd_callback epsilon normal_distribution
              uniform_real_distribution P cmd s in
  let s1' := wheel_cmd_callback epsilon normal_distribution'
               uniform_real_distribution' P cmd s' in
  let tick := timer_callback forward_kinematics P in
  let K := MOTOR_CMD_PER_RAD_SEC P in
  let dt := 1 / IZR (RATE P) in
  true_wheel_speeds s1
  = mkWheelState (IZR (left_velocity cmd) * K)
                 (IZR (right_velocity cmd) * K) /\
  fst (tick s1) = fst (tick s1') /\
  ground_truth (snd (tick s1)) = ground_truth (snd (tick s1')) /\
  true_wheel_angles (snd (tick s1))
  = mkWheelState
      (left (true_wheel_angles s) + IZR (left_velocity cmd) * K * dt)
      (right (true_wheel_angles s) + IZR (right_velocity cmd) * K * dt) /\
  slippy_wheel_angles (snd (tick s1))
  = mkWheelState
      (left (slippy_wheel_angles s1)
       + left (noisy_wheel_speeds s1) * (1 + left_slip s1) * dt)
      (right (slippy_wheel_angles s1)
       + right (noisy_wheel_speeds s1) * (1 + right_slip s1) * dt) /\
  sensor_data (snd (tick s1))
  = mkSensorData
      (int_of_double (left (slippy_wheel_angles (snd (tick s1)))
                      * ENCODER_TICKS_PER_RAD P))
      (int_of_double (right (slippy_wheel_angles (snd (tick s1)))
                      * ENCODER_TICKS_PER_RAD P)) /\
  (if almost_equal epsilon (IZR (left_velocity cmd)) 0
   then left (noisy_wheel_speeds s1) = left (true_wheel_speeds s1)
   else exists g,
       left (noisy_wheel_speeds s1)
       = IZR (left_velocity cmd) * K
         + fst (normal_distribution 0 (INPUT_NOISE P) g)) /\
  (if almost_equal epsilon (IZR (right_velocity cmd)) 0
   then right (noisy_wheel_speeds s1) = right (true_wheel_speeds s1)
   else exists g,
       right (noisy_wheel_speeds s1)
       = IZR (right_velocity cmd) * K
         + fst (normal_distribution 0 (INPUT_NOISE P) g)) /\
  (if almost_equal epsilon (SLIP_FRACTION P) 0
   then left_slip s1 = left_slip s /\ right_slip s1 = right_slip s
   else exists g g',
       right_slip s1
       = fst (uniform_real_distribution (- SLIP_FRACTION P)
                (SLIP_FRACTION P) g) /\
       left_slip s1
       = fst (uniform_real_distribution (- SLIP_FRACTION P)
                (SLIP_FRACTION P) g')).
Proof.
  intros H. cbv zeta.
  pose proof (wheel_cmd_callback_ground_truth epsilon normal_distribution
                uniform_real_distribution P cmd s) as H1.
  pose proof (wheel_cmd_callback_ground_truth epsilon normal_distribution'
                uniform_real_distribution' P cmd s') as H1'.
  assert (H11 : ground_truth
                  (wheel_cmd_callback epsilon normal_distribution
                     uniform_real_distribution P cmd s)
                = ground_truth
                    (wheel_cmd_callback epsilon normal_distribution'
                       uniform_real_distribution' P cmd s')).
  { rewrite H1, H1'.
    apply (ground_truth_eq s s') in H as (_ & -> & -> & ->). reflexivity. }
  destruct (ground_truth_only_timer_callback forward_kinematics P _ _ H11)
    as [Ho Hg].
  destruct (timer_callback_state forward_kinematics P
              (wheel_cmd_callback epsilon normal_distribution
                 uniform_real_distribution P cmd s))
    as (st & c & pose & dd & Hst).
  cbv zeta in Hst.
  injection H1 as Hspeeds Hangles _ _.
  conjs; try assumption.
  - rewrite Hst. cbn. rewrite Hangles, Hspeeds. reflexivity.
  - rewrite Hst. reflexivity.
  - rewrite Hst. reflexivity.
  - apply wheel_cmd_callback_noise.
  - apply wheel_cmd_callback_noise.
  - apply wheel_cmd_callback_slip.
Qed.

End NoiseAndSlip.

(** ** The claims at concrete inputs *)

Lemma detect_collision_resolves_in_order_witness :
  let after := snd (detect_collision arena (at_rest [])) in
  fst (detect_collision arena (at_rest [])) = Ok tt /\
  distance (Vector2D.mk 0 0)
    (Vector2D.mk (Pose2D.x (true_pose after)) (Pose2D.y (true_pose after)))
  = obstacles_r arena + COLLISION_RADIUS arena.
Proof.
  destruct (detect_collision_resolves_in_order arena open_field 0 0
              (at_rest []) eq_refl eq_refl eq_refl eq_refl eq_refl)
    as (Hok & _ & Hin & _).
  split; [exact Hok | ].
  apply Hin. unfold distance. cbn.
  replace (1 / 2 + 1 / 2) with (sqrt 1) by (rewrite sqrt_1; lra).
  apply sqrt_le_1_alt. lra.
Defined.

Lemma idle_wheel_noise_free_witness :
  let s' := wheel_cmd_callback (DiffDrive := unit) tolerance normal_script
              uniform_script arena left_only (at_rest [1; 1 / 2; 1 / 2]) in
  right (noisy_wheel_speeds s') = right (true_wheel_speeds s').
Proof.
  cbv zeta.
  apply (idle_wheel_noise_free tolerance normal_script uniform_script arena
           left_only (at_rest [1; 1 / 2; 1 / 2]) tolerance_bounds).
  reflexivity.
Defined.

Lemma ground_truth_free_of_noise_and_slip_witness :
  ground_truth
    (snd (timer_callback parked arena
            (wheel_cmd_callback tolerance normal_script uniform_script arena
               forward (at_rest [1; 1; 1 / 2; 1 / 2]))))
  = ground_truth
      (snd (timer_callback parked arena
              (wheel_cmd_callback tolerance normal_script uniform_script arena
                 forward (at_rest [])))).
Proof.
  apply (ground_truth_free_of_noise_and_slip tolerance normal_script
           normal_script uniform_script uniform_script parked arena forward
           (at_rest [1; 1; 1 / 2; 1 / 2]) (at_rest []) eq_refl).
Defined.

(** C6 as the spec states it fails: with both wheels commanded forward and
    a noise sample of 1 drawn for the left wheel, the sample is in the
    noisy speed (2) and not in the true speed (1), and the true wheel angle
    after one tick of one second is 1, the noise-free value. *)
Lemma noise_is_not_in_the_true_speed :
  let script := [1; 1; 1 / 2; 1 / 2] in
  let s1 := wheel_cmd_callback (DiffDrive := unit) tolerance normal_script
              uniform_script arena forward (at_rest script) in
  let sample := fst (normal_script 0 (INPUT_NOISE arena) script) in
  let commanded :=
    IZR (left_velocity forward) * MOTOR_CMD_PER_RAD_SEC arena in
  sample = 1 /\
  left (noisy_wheel_speeds s1) = commanded + sample /\
  left (true_wheel_speeds s1) <> commanded + sample /\
  left (true_wheel_angles (snd (timer_callback parked arena s1))) = 1.
Proof.
  cbv zeta.
  pose proof (wheel_cmd_callback_ground_truth tolerance normal_script
                uniform_script arena forward
                (at_rest [1; 1; 1 / 2; 1 / 2])) as Hgt.
  injection Hgt as Hspeeds Hangles _ _.
  destruct (timer_callback_state parked arena
              (wheel_cmd_callback tolerance normal_script uniform_script arena
                 forward (at_rest [1; 1; 1 / 2; 1 / 2])))
    as (st & c & pose & dd & Hst).
  cbv zeta in Hst.
  conjs.
  - cbn. lra.
  - unfold wheel_cmd_callback, draw.
    rewrite !(almost_equal_int tolerance _ tolerance_bounds). cbn.
    destruct (negb _); reflexivity.
  - rewrite Hspeeds. cbn. lra.
  - rewrite Hst. cbn. rewrite Hangles, Hspeeds. cbn. lra.
Qed.

(** * Further properties *)

(** ** The measurement type *)

Section LandmarkProps.

Import Landmark.

Lemma atan2_range (y x : R) : - PI < atan2 y x <= PI.
Proof.
  assert (Hpi := PI_RGT_0). unfold atan2.
  destruct (Rlt_dec 0 x) as [Hx | Hx].
  - pose proof (atan_bound (y / x)). lra.
  - destruct (Rlt_dec x 0) as [Hx' | Hx'].
    + pose proof (atan_bound (y / x)) as Hb.
      destruct (Rle_dec 0 y) as [Hy | Hy].
      * assert (Hq : y / x <= 0).
        { unfold Rdiv. assert (/ x < 0) by (apply Rinv_lt_0_compat; lra).
          nra. }
        assert (atan (y / x) <= 0).
        { rewrite <- atan_0. destruct Hq as [Hq | Hq];
            [left; apply atan_increasing; exact Hq | rewrite Hq; lra]. }
        lra.
      * assert (Hq : 0 < y / x).
        { unfold Rdiv. assert (/ x < 0) by (apply Rinv_lt_0_compat; lra).
          nra. }
        assert (0 < atan (y / x)).
        { rewrite <- atan_0. apply atan_increasing. exact Hq. }
        lra.
    + destruct (Rlt_dec 0 y); [lra | ].
      destruct (Rlt_dec y 0); lra.
Qed.

Lemma polar_of_cartesian (x y : R) :
  sqrt (x ^ 2 + y ^ 2) * cos (atan2 y x) = x /\
  sqrt (x ^ 2 + y ^ 2) * sin (atan2 y x) = y.
Proof.
  destruct (Req_dec x 0) as [Hx | Hx]; [destruct (Req_dec y 0) as [Hy | Hy] | ].
  - subst. replace (0 ^ 2 + 0 ^ 2) with 0 by ring. rewrite sqrt_0. lra.
  - assert (Hne : x <> 0 \/ y <> 0) by auto.
    destruct (atan2_polar x y Hne) as [-> ->].
    pose proof (norm_pos x y Hne). split; field; lra.
  - assert (Hne : x <> 0 \/ y <> 0) by auto.
    destruct (atan2_polar x y Hne) as [-> ->].
    pose proof (norm_pos x y Hne). split; field; lra.
Qed.

(** X1: the range and bearing of a point give the point back; the range
    is not negative and the bearing is the [atan2] angle, in (-pi, pi]. *)
Theorem from_cartesian_round_trip (x y : R) (id : Z) :
  let m := from_cartesian x y id in
  r m * cos (phi m) = x /\
  r m * sin (phi m) = y /\
  marker_id m = id /\
  0 <= r m /\
  phi m = atan2 y x /\
  - PI < phi m <= PI.
Proof.
  cbv zeta. unfold from_cartesian. cbn [r phi marker_id].
  rewrite (normalize_angle_id _ (atan2_range y x)).
  destruct (polar_of_cartesian x y) as [Hc Hs].
  conjs; auto using sqrt_pos, atan2_range; apply atan2_range.
Qed.

(** X2: the matrix of a measurement is 2 by 1, its range above its bearing
    brought into (-pi, pi]; for a measurement made by [from_cartesian]
    that is the range and the [atan2] angle themselves, and there is no
    third row to read. *)
Theorem to_mat_of_from_cartesian (x y : R) (id : Z)
        (m : LandmarkMeasurement) :
  to_mat m = [[r m]; [normalize_angle (phi m)]] /\
  to_mat (from_cartesian x y id) = [[sqrt (x ^ 2 + y ^ 2)]; [atan2 y x]] /\
  elem (to_mat m) 2 0 = Throw out_of_range /\
  elem (to_mat m) 0 1 = Throw out_of_range.
Proof.
  conjs; try reflexivity.
  unfold to_mat, from_cartesian. cbn.
  rewrite !(normalize_angle_id _ (atan2_range y x)). reflexivity.
Qed.

End LandmarkProps.

(** ** The estimator: what the correct step never reaches *)

Section UpdateStops.

(** X3: on a batch that is not empty [update] never returns normally and
    never gets to the second measurement: it ends in an exception while
    handling the first one (Armadillo's out-of-range error when the
    association step itself succeeded), leaving the state the
    association of the first measurement left. *)
Theorem update_stops_at_first_measurement (m : LandmarkMeasurement)
        (ms : list LandmarkMeasurement) (s : KalmanFilter) :
  fst (update (m :: ms) s) <> Ok tt /\
  snd (update (m :: ms) s) = snd (update_measurements m s) /\
  (fst (update_measurements m s) = Ok tt ->
   fst (update (m :: ms) s) = Throw out_of_range) /\
  update [] s = (Ok tt, s).
Proof.
  destruct (update_cons_state m ms s) as [-> ->].
  conjs; auto using update_step_throws.
  intros Hok. rewrite update_step_outcome, Hok. reflexivity.
Qed.

End UpdateStops.

(** ** The estimator: the index map *)

Section IndexMap.

Variable epsilon : R.

(** Every reachable state comes from the constructor by [predict] and
    [update_measurements] alone: [update] adds the association of its
    first measurement and nothing else. *)
Lemma reachable_induction (Pr : KalmanFilter -> Prop) :
  Pr KalmanFilter_new ->
  (forall s V, reachable epsilon s -> Pr s ->
               Pr (snd (predict epsilon V s))) ->
  (forall s m, reachable epsilon s -> Pr s ->
               Pr (snd (update_measurements m s))) ->
  forall s, reachable epsilon s -> Pr s.
Proof.
  intros Hnew Hpredict Hum s Hs.
  induction Hs as [ | s V Hs IH | s m Hs IH | s ms Hs IH]; auto.
  destruct ms as [ | m ms]; [exact IH | ].
  destruct (update_cons_state m ms s) as [_ ->]. auto.
Qed.

Lemma index_invariant_new : index_invariant KalmanFilter_new.
Proof.
  exists ∅. conjs.
  - cbn. by rewrite fmap_empty.
  - reflexivity.
  - intros id n. by rewrite lookup_empty.
  - intros id id' n. by rewrite lookup_empty.
Qed.

Lemma index_invariant_update_measurements (m : LandmarkMeasurement)
      (s : KalmanFilter) :
  invariant s -> index_invariant s ->
  index_invariant (snd (update_measurements m s)).
Proof.
  intros [(landmarks & HXi & _) _ _ _] (counts & Hd & Hn & Hb & Hinj).
  destruct (landmarks_dict s !! marker_id m) as [i | ] eqn:Hid.
  - rewrite update_measurements_known by eauto. cbn [snd].
    exists counts. auto.
  - rewrite (update_measurements_unseen m s 0 0 0 landmarks Hid HXi).
    cbn [snd].
    assert (Hfresh : counts !! marker_id m = None).
    { rewrite Hd, lookup_fmap in Hid.
      destruct (counts !! marker_id m); [discriminate | reflexivity]. }
    exists (<[marker_id m := (n_rows (Xi_hat s) + 2)%nat]> counts).
    unfold set_landmarks_dict, set_Xi_hat.
    cbn [landmarks_dict Xi_hat]. unfold n_rows in *.
    rewrite length_app. cbn [length].
    conjs.
    + rewrite fmap_insert, Hd. reflexivity.
    + rewrite map_size_insert_None by exact Hfresh. lia.
    + intros id n. destruct (decide (id = marker_id m)) as [-> | Hne].
      * rewrite lookup_insert_eq. intros [= <-]. lia.
      * rewrite lookup_insert_ne by congruence.
        intros Hl. specialize (Hb id n Hl). lia.
    + intros id id' n.
      destruct (decide (id = marker_id m)) as [-> | Hne];
        destruct (decide (id' = marker_id m)) as [-> | Hne'];
        rewrite ?lookup_insert_eq, ?lookup_insert_ne by congruence.
      * reflexivity.
      * intros [= <-] Hl. specialize (Hb _ _ Hl). lia.
      * intros Hl [= <-]. specialize (Hb _ _ Hl). lia.
      * apply Hinj.
Qed.

Lemma reachable_index_invariant (s : KalmanFilter) :
  reachable epsilon s -> index_invariant s.
Proof.
  intros Hs. pattern s. revert s Hs. apply reachable_induction.
  - apply index_invariant_new.
  - intros s V _ (counts & Hd & Hn & Hb & Hinj).
    destruct (predict_frame epsilon V s) as (HXi & _ & _ & Hdict).
    exists counts. rewrite HXi, Hdict. auto.
  - intros s m Hs. apply index_invariant_update_measurements.
    apply (reachable_invariant epsilon), Hs.
Qed.

(** X4: in every reachable state [Xi_hat] has the three pose rows and
    two rows for each identity in the index map, no more and no fewer. *)
Theorem two_rows_per_landmark (s : KalmanFilter) :
  reachable epsilon s ->
  n_rows (Xi_hat s) = (3 + 2 * size (landmarks_dict s))%nat.
Proof.
  intros (counts & Hd & Hn & _)%reachable_index_invariant.
  rewrite Hd, map_size_fmap. exact Hn.
Qed.

(** X6: in every reachable state whose row count fits an [int], the
    stored offsets lie between 5 and the row count of [Xi_hat], and two
    identities never share an offset. *)
Theorem offsets_distinct (s : KalmanFilter) :
  reachable epsilon s ->
  (Z.of_nat (n_rows (Xi_hat s)) < 2 ^ 31)%Z ->
  (forall id i, landmarks_dict s !! id = Some i ->
                (5 <= i <= Z.of_nat (n_rows (Xi_hat s)))%Z) /\
  (forall id id' i, landmarks_dict s !! id = Some i ->
                    landmarks_dict s !! id' = Some i -> id = id').
Proof.
  intros (counts & Hd & Hn & Hb & Hinj)%reachable_index_invariant Hfit.
  assert (Hval : forall id i,
             landmarks_dict s !! id = Some i ->
             exists n, counts !! id = Some n /\ i = Z.of_nat n).
  { intros id i. rewrite Hd, lookup_fmap.
    destruct (counts !! id) as [n | ] eqn:Hc; [ | discriminate].
    intros [= <-]. exists n. split; [reflexivity | ].
    specialize (Hb id n Hc). unfold int_of_uword.
    rewrite Z.mod_small by lia. lia. }
  split.
  - intros id i (n & Hc & ->)%Hval. specialize (Hb id n Hc). lia.
  - intros id id' i (n & Hc & ->)%Hval (n' & Hc' & Heq)%Hval.
    apply Nat2Z.inj in Heq. subst n'. eapply Hinj; eassumption.
Qed.

End IndexMap.

(** X5: an entry of the index map is never changed or removed: whatever
    [predict], [update_measurements] or [update] is called with, an identity
    keeps the offset it has. *)
Theorem index_entries_are_kept (epsilon : R) (s : KalmanFilter) (id i : Z) :
  landmarks_dict s !! id = Some i ->
  (forall V, landmarks_dict (snd (predict epsilon V s)) !! id = Some i) /\
  (forall m, landmarks_dict (snd (update_measurements m s)) !! id = Some i) /\
  (forall ms, landmarks_dict (snd (update ms s)) !! id = Some i).
Proof.
  intros Hid.
  assert (Hum : forall m,
             landmarks_dict (snd (update_measurements m s)) !! id = Some i).
  { intros m. unfold update_measurements. unfold_monad. cbv beta.
    destruct (landmarks_dict s !! marker_id m) as [j | ] eqn:Hm; cbn;
      [exact Hid | ].
    case_monad; try exact Hid.
    rewrite lookup_insert_ne; [exact Hid | congruence]. }
  conjs.
  - intros V. destruct (predict_frame epsilon V s) as (_ & _ & _ & ->).
    exact Hid.
  - exact Hum.
  - intros [ | m ms]; [exact Hid | ].
    destruct (update_cons_state m ms s) as [_ ->]. apply Hum.
Qed.

(** ** The estimator: the predict step *)

Section PredictProps.

Variable epsilon : R.

(** In a state with zero pose rows and zero covariance and process noise,
    [predict] returns normally, leaves the covariance zero, and stores a
    pose that is a function of the twist alone. *)
Lemma predict_from_zero (V : Twist2D) (s : KalmanFilter) (landmarks : mat) :
  Xi_hat s = zeros 3 1 ++ landmarks ->
  sigma_hat s = zeros 3 3 ->
  Q_mat s = zeros 3 3 ->
  fst (predict epsilon V s) = Ok tt /\
  sigma_hat (snd (predict epsilon V s)) = zeros 3 3 /\
  qt_hat (snd (predict epsilon V s))
  = qt_hat (snd (predict epsilon V KalmanFilter_new)).
Proof.
  intros HXi Hs HQ. unfold predict. unfold_monad.
  destruct (almost_equal _ _ _); cbv beta; rewrite HXi; cbn;
    rewrite Hs, HQ; cbn; (conjs; [reflexivity | | reflexivity]);
    unfold dot; cbn; repeat f_equal; ring.
Qed.

Lemma reachable_sigma_hat (s : KalmanFilter) :
  reachable epsilon s -> sigma_hat s = zeros 3 3.
Proof.
  intros Hs. pattern s. revert s Hs. apply reachable_induction.
  - reflexivity.
  - intros s V Hs IH.
    destruct (reachable_invariant epsilon s Hs)
      as [(landmarks & HXi & _) _ _ HQ].
    apply (predict_from_zero V s landmarks HXi IH HQ).
  - intros s m _ IH.
    destruct (update_measurements_frame m s) as (_ & _ & -> & _).
    exact IH.
Qed.

(** X7: the covariance never leaves zero.  It is constructed zero, the
    process noise [Q_mat] is zero and never assigned, and
    [A * 0 * A.t() + 0] is zero: in every reachable state [sigma_hat]
    and [Q_mat] are the 3 by 3 zero matrix. *)
Theorem covariance_stays_zero (s : KalmanFilter) :
  reachable epsilon s ->
  sigma_hat s = zeros 3 3 /\ Q_mat s = zeros 3 3.
Proof.
  intros Hs. split; [apply reachable_sigma_hat, Hs | ].
  apply (inv_Q_mat s (reachable_invariant epsilon s Hs)).
Qed.

Lemma KalmanFilter_eq (s s' : KalmanFilter) :
  qt_hat s = qt_hat s' -> mt_hat s = mt_hat s' -> Xi_hat s = Xi_hat s' ->
  sigma_hat s = sigma_hat s' -> Q_mat s = Q_mat s' ->
  landmarks_dict s = landmarks_dict s' -> s = s'.
Proof. destruct s, s'. cbn. by intros -> -> -> -> -> ->. Qed.

(** X8: [predict] does not accumulate.  In a reachable state it returns
    normally, and the state it leaves does not depend on the predictions
    made before: the pose it stores is the one it stores on a new
    filter, one motion step from the origin. *)
Theorem predict_forgets_earlier_predictions (V1 V2 : Twist2D)
        (s : KalmanFilter) :
  reachable epsilon s ->
  fst (predict epsilon V2 s) = Ok tt /\
  snd (predict epsilon V2 (snd (predict epsilon V1 s)))
  = snd (predict epsilon V2 s) /\
  pose_prediction (snd (predict epsilon V2 s))
  = pose_prediction (snd (predict epsilon V2 KalmanFilter_new)).
Proof.
  intros Hs.
  assert (Hs1 : reachable epsilon (snd (predict epsilon V1 s)))
    by (apply reachable_predict, Hs).
  assert (Hzero : forall s0 V,
             reachable epsilon s0 ->
             fst (predict epsilon V s0) = Ok tt /\
             sigma_hat (snd (predict epsilon V s0)) = zeros 3 3 /\
             qt_hat (snd (predict epsilon V s0))
             = qt_hat (snd (predict epsilon V KalmanFilter_new))).
  { intros s0 V Hs0.
    destruct (reachable_invariant epsilon s0 Hs0)
      as [(landmarks & HXi & _) _ _ HQ].
    apply (predict_from_zero V s0 landmarks HXi
             (reachable_sigma_hat s0 Hs0) HQ). }
  destruct (Hzero s V2 Hs) as (Hok & Hsig & Hq).
  destruct (Hzero _ V2 Hs1) as (_ & Hsig1 & Hq1).
  conjs; [exact Hok | | exact Hq].
  destruct (predict_frame epsilon V2 s) as (FXi & Fmt & FQ & Fd).
  destruct (predict_frame epsilon V2 (snd (predict epsilon V1 s)))
    as (FXi1 & Fmt1 & FQ1 & Fd1).
  destruct (predict_frame epsilon V1 s) as (GXi & Gmt & GQ & Gd).
  apply KalmanFilter_eq; congruence.
Qed.

End PredictProps.

(** ** The simulator: the collision check *)

Section CollisionProps.

Context {Rng DiffDrive : Type}.
Variable P : Params.

Implicit Types s : Nusim Rng DiffDrive.

Lemma vec_at_outcome (v : list R) (i : nat) :
  (i < length v)%nat \/ vec_at v i = Throw out_of_range.
Proof.
  unfold vec_at. destruct (nth_error v i) eqn:H; [left | by right].
  apply nth_error_Some. congruence.
Qed.

Lemma collide_outcome (i : nat) s :
  (i < length (obstacles_x P))%nat ->
  fst (collide P i s)
  = if (i <? length (obstacles_y P))%nat then Ok tt
    else Throw out_of_range.
Proof.
  intros Hi. unfold collide, bind, lift, gets, modify, ret, vec_at.
  destruct (nth_error (obstacles_x P) i) as [ox | ] eqn:Hx;
    [ | apply nth_error_None in Hx; lia].
  destruct (Nat.ltb_spec i (length (obstacles_y P))) as [Hy | Hy].
  - destruct (nth_error (obstacles_y P) i) as [oy | ] eqn:Hoy;
      [ | apply nth_error_None in Hoy; lia].
    cbv beta iota. destruct (Rle_dec _ _); reflexivity.
  - apply nth_error_None in Hy. rewrite Hy. reflexivity.
Qed.

Lemma for_each_collide_outcome (k a : nat) s :
  (a + k <= length (obstacles_x P))%nat ->
  fst (for_each (seq a k) (collide P) s)
  = if ((k =? 0) || (a + k <=? length (obstacles_y P)))%nat then Ok tt
    else Throw out_of_range.
Proof.
  revert a s. induction k as [ | k IH]; intros a s Hk; [reflexivity | ].
  cbn [seq for_each]. unfold bind.
  pose proof (collide_outcome a s ltac:(lia)) as Hc.
  destruct (collide P a s) as [[[] | e] s1]; cbn [fst] in Hc |- *.
  - rewrite IH by lia.
    destruct (Nat.ltb_spec a (length (obstacles_y P))); [ | discriminate].
    destruct k as [ | k']; cbn [Nat.eqb orb].
    + destruct (Nat.leb_spec (a + 1) (length (obstacles_y P)));
        [reflexivity | lia].
    + replace (S a + S k')%nat with (a + S (S k'))%nat by lia.
      reflexivity.
  - destruct (Nat.ltb_spec a (length (obstacles_y P))); [discriminate | ].
    injection Hc as ->. cbn [Nat.eqb orb].
    destruct (Nat.leb_spec (a + S k) (length (obstacles_y P)));
      [lia | reflexivity].
Qed.

(** X9: the collision check returns normally exactly when every obstacle
    has a y coordinate; with more x coordinates than y coordinates it
    ends in [std::out_of_range] (thrown by [obstacles_y.at(i)]). *)
Theorem detect_collision_outcome s :
  fst (detect_collision P s)
  = if (length (obstacles_x P) <=? length (obstacles_y P))%nat then Ok tt
    else Throw out_of_range.
Proof.
  unfold detect_collision.
  destruct (Nat.ltb_spec 0 (length (obstacles_x P))) as [Hpos | Hzero].
  - rewrite for_each_collide_outcome by lia.
    destruct (Nat.eqb_spec (length (obstacles_x P)) 0); [lia | ].
    reflexivity.
  - cbn. destruct (Nat.leb_spec (length (obstacles_x P))
                     (length (obstacles_y P))); [reflexivity | lia].
Qed.

Lemma collide_position (i : nat) s :
  exists x y,
    snd (collide P i s)
    = set_true_pose (Pose2D.mk x y (Pose2D.theta (true_pose s))) s.
Proof.
  unfold collide, bind, lift, gets, modify, ret.
  assert (Hsame : exists x y,
             s = set_true_pose
                   (Pose2D.mk x y (Pose2D.theta (true_pose s))) s).
  { destruct s as [? ? ? ? ? ? ? ? ? ? [x y th] ? ? ?]. by exists x, y. }
  destruct (vec_at (obstacles_x P) i); [ | exact Hsame].
  destruct (vec_at (obstacles_y P) i); [ | exact Hsame].
  cbv beta iota. destruct (Rle_dec _ _); [ | exact Hsame].
  cbn [snd]. eauto.
Qed.

(** X10: the collision check moves the robot and does nothing else: the
    state it leaves, exception or not, is the state it started from with
    a new position; the heading, the wheels, the encoder message and the
    counters are as they were. *)
Theorem detect_collision_moves_position_only s :
  exists x y,
    snd (detect_collision P s)
    = set_true_pose (Pose2D.mk x y (Pose2D.theta (true_pose s))) s.
Proof.
  unfold detect_collision.
  destruct (_ <? _)%nat;
    [ | destruct s as [? ? ? ? ? ? ? ? ? ? [x y th] ? ? ?]; by exists x, y].
  generalize (seq 0 (length (obstacles_x P))). intros l.
  revert s. induction l as [ | i l IH]; intros s; cbn [for_each].
  - destruct s as [? ? ? ? ? ? ? ? ? ? [x y th] ? ? ?]. by exists x, y.
  - unfold bind. destruct (collide_position i s) as (x & y & Hi).
    destruct (collide P i s) as [[[] | e] s1]; cbn [snd] in Hi |- *.
    + destruct (IH s1) as (x' & y' & ->). subst s1. by exists x', y'.
    + eauto.
Qed.

End CollisionProps.

Section CollisionFixpoint.

Context {Rng DiffDrive : Type}.
Variable P : Params.

Implicit Types s : Nusim Rng DiffDrive.

(** The resolved position is seen from the obstacle at the angle it was
    placed at, also when the robot sat on the obstacle's centre. *)
Lemma resolved_bearing (dx dy reach : R) :
  let a := atan2 dy dx in
  sqrt (dx ^ 2 + dy ^ 2) <= reach ->
  atan2 (sin a * reach) (cos a * reach) = a.
Proof.
  intros a Hreach.
  pose proof (sqrt_pos (dx ^ 2 + dy ^ 2)) as Hd0.
  destruct (Rle_lt_or_eq_dec _ _ Hd0) as [Hpos | Hzero].
  - apply bearing_on_circle. lra.
  - symmetry in Hzero. apply sqrt_eq_0 in Hzero; [ | nra].
    assert (dx = 0) by nra. assert (dy = 0) by nra. subst dx dy.
    assert (Ha : a = 0).
    { unfold a, atan2. repeat destruct (Rlt_dec _ _); lra. }
    rewrite Ha, sin_0, cos_0, Rmult_0_l, Rmult_1_l.
    unfold atan2.
    destruct (Rlt_dec 0 reach).
    + unfold Rdiv. rewrite Rmult_0_l. apply atan_0.
    + repeat destruct (Rlt_dec _ _); lra.
Qed.

(** X11: after the check against one obstacle the robot does not overlap
    it, and checking the same obstacle again changes nothing: the robot
    is at least the sum of the radii away, and the resolved position is
    a fixed point of the resolver. *)
Theorem collide_clears_and_settles (i : nat) (ox oy : R) s :
  vec_at (obstacles_x P) i = Ok ox ->
  vec_at (obstacles_y P) i = Ok oy ->
  let s' := snd (collide P i s) in
  obstacles_r P + COLLISION_RADIUS P
  <= distance (Vector2D.mk ox oy)
       (Vector2D.mk (Pose2D.x (true_pose s')) (Pose2D.y (true_pose s'))) /\
  snd (collide P i s') = s'.
Proof.
  intros Hox Hoy. cbv zeta.
  unfold collide, bind, lift, gets, modify, ret.
  rewrite Hox, Hoy. cbv beta iota.
  destruct s as [st c ln rn ls rs nws swa twa tws [x y th] dd sd g].
  cbn [true_pose Pose2D.x Pose2D.y Pose2D.theta].
  pose proof (distance_nonneg (Vector2D.mk ox oy) (Vector2D.mk x y)) as Hd0.
  set (reach := obstacles_r P + COLLISION_RADIUS P) in *.
  destruct (Rle_dec (distance _ (Vector2D.mk x y) - reach) 0)
    as [Hle | Hgt]; cbn [snd true_pose set_true_pose Pose2D.x Pose2D.y
                         Pose2D.theta].
  - set (a := atan2 (y - oy) (x - ox)).
    assert (Hon : distance (Vector2D.mk ox oy)
                    (Vector2D.mk (ox + cos a * reach) (oy + sin a * reach))
                  = reach) by (apply distance_on_circle; lra).
    rewrite Hon. split; [lra | ].
    destruct (Rle_dec (reach - reach) 0) as [_ | Hn]; [ | lra].
    cbn [snd set_true_pose true_pose step count left_noise right_noise
         left_slip right_slip noisy_wheel_speeds slippy_wheel_angles
         true_wheel_angles true_wheel_speeds ddrive sensor_data random
         Pose2D.x Pose2D.y Pose2D.theta].
    replace (oy + sin a * reach - oy) with (sin a * reach) by ring.
    replace (ox + cos a * reach - ox) with (cos a * reach) by ring.
    unfold a at 1 3. rewrite resolved_bearing; [reflexivity | ].
    rewrite distance_sym_sq in Hle. lra.
  - split; [lra | ].
    destruct (Rle_dec _ _) as [Hle | _]; [lra | reflexivity].
Qed.

End CollisionFixpoint.

(** ** The simulator: wheels, encoders and counters *)

Lemma IZR_INT_MIN : IZR INT_MIN = -2147483648.
Proof. reflexivity. Qed.

Lemma IZR_INT_MAX : IZR INT_MAX = 2147483647.
Proof. reflexivity. Qed.

(** Where the double fits, the cast cuts toward zero and gives an [int]. *)
Lemma int_of_double_truncates (x : R) :
  fits_int x ->
  Rabs (IZR (int_of_double x)) <= Rabs x /\
  Rabs (x - IZR (int_of_double x)) < 1 /\
  (0 <= x -> 0 <= IZR (int_of_double x) <= x) /\
  (x <= 0 -> x <= IZR (int_of_double x) <= 0) /\
  (INT_MIN <= int_of_double x <= INT_MAX)%Z.
Proof.
  intros [Hlo Hhi]. unfold int_of_double.
  destruct (Rlt_dec _ _) as [_ | Hn]; [ | lra].
  destruct (Rlt_dec _ _) as [_ | Hn]; [ | lra].
  rewrite IZR_INT_MIN in Hlo. rewrite IZR_INT_MAX in Hhi.
  destruct (Rle_dec 0 x) as [Hx | Hx].
  - destruct (base_Int_part x) as [H1 H2].
    assert (H0 : 0 <= IZR (Int_part x)).
    { apply IZR_le. apply Z.lt_succ_r. apply lt_IZR.
      rewrite succ_IZR. lra. }
    rewrite (Rabs_right x), (Rabs_right (IZR _)), Rabs_right by lra.
    conjs; try (intros; lra).
    + apply le_IZR. rewrite IZR_INT_MIN. lra.
    + assert (Int_part x < 2147483648)%Z by (apply lt_IZR; lra).
      unfold INT_MAX. lia.
  - destruct (base_Int_part (- x)) as [H1 H2].
    assert (H0 : 0 <= IZR (Int_part (- x))).
    { apply IZR_le. apply Z.lt_succ_r. apply lt_IZR.
      rewrite succ_IZR. lra. }
    rewrite opp_IZR.
    rewrite (Rabs_left x), (Rabs_left1 (- IZR _)), Rabs_left1 by lra.
    conjs; try (intros; lra).
    + assert (Int_part (- x) < 2147483649)%Z by (apply lt_IZR; lra).
      unfold INT_MIN. lia.
    + apply le_IZR. rewrite opp_IZR, IZR_INT_MAX. lra.
Qed.

(** Outside the range of [int] the model gives [INT_MIN]. *)
Lemma int_of_double_range (x : R) :
  (INT_MIN <= int_of_double x <= INT_MAX)%Z.
Proof.
  destruct (Rlt_dec (IZR INT_MIN - 1) x) as [Hlo | Hlo];
    [destruct (Rlt_dec x (IZR INT_MAX + 1)) as [Hhi | Hhi] | ].
  - apply int_of_double_truncates. split; assumption.
  - unfold int_of_double. destruct (Rlt_dec _ _); [ | done].
    destruct (Rlt_dec _ _); [lra | done].
  - unfold int_of_double. destruct (Rlt_dec _ _); [lra | done].
Qed.

Section WheelProps.

Context {Rng DiffDrive : Type}.
Variable epsilon : R.
Variable normal_distribution : R -> R -> Rng -> R * Rng.
Variable uniform_real_distribution : R -> R -> Rng -> R * Rng.
Variable forward_kinematics :
  DiffDrive -> Pose2D.t -> WheelState -> Pose2D.t * DiffDrive.
Variable P : Params.

Implicit Types s : Nusim Rng DiffDrive.

Local Abbreviation callback :=
  (wheel_cmd_callback epsilon normal_distribution
     uniform_real_distribution P).
Local Abbreviation tick := (timer_callback forward_kinematics P).

(** The command callback leaves the wheel angles, the encoder message
    and the counters alone. *)
Lemma wheel_cmd_callback_frame (cmd : WheelCommands) s :
  slippy_wheel_angles (callback cmd s) = slippy_wheel_angles s /\
  sensor_data (callback cmd s) = sensor_data s /\
  step (callback cmd s) = step s /\
  count (callback cmd s) = count s.
Proof.
  unfold wheel_cmd_callback, draw. case_draws; auto.
Qed.

(** X12: a robot commanded to stand still does not drift.  After the
    command (0, 0) a tick leaves both the true and the slipping wheel
    angles as they were, whatever the noise and slip settings and
    whatever the generator gives: the speeds are zero and the zero test
    keeps noise off them. *)
Theorem idle_robot_does_not_drift (cmd : WheelCommands) s :
  0 < epsilon ->
  left_velocity cmd = 0%Z -> right_velocity cmd = 0%Z ->
  let s1 := wheel_cmd_callback epsilon normal_distribution
              uniform_real_distribution P cmd s in
  let s2 := snd (timer_callback forward_kinematics P s1) in
  true_wheel_speeds s1 = mkWheelState 0 0 /\
  noisy_wheel_speeds s1 = mkWheelState 0 0 /\
  true_wheel_angles s2 = true_wheel_angles s /\
  slippy_wheel_angles s2 = slippy_wheel_angles s.
Proof.
  intros Heps Hl Hr. cbv zeta.
  pose proof (wheel_cmd_callback_ground_truth epsilon normal_distribution
                uniform_real_distribution P cmd s) as Hgt.
  injection Hgt as Hspeeds Hangles _ _.
  rewrite Hl, Hr, !Rmult_0_l in Hspeeds.
  destruct (wheel_cmd_callback_noise epsilon normal_distribution
              uniform_real_distribution P cmd s) as [Hnl Hnr].
  cbv zeta in Hnl, Hnr.
  rewrite Hl, almost_equal_refl in Hnl by exact Heps.
  rewrite Hr, almost_equal_refl in Hnr by exact Heps.
  rewrite Hspeeds in Hnl, Hnr. cbn in Hnl, Hnr.
  assert (Hnoisy : noisy_wheel_speeds (callback cmd s) = mkWheelState 0 0).
  { destruct (noisy_wheel_speeds (callback cmd s)). cbn in *. congruence. }
  destruct (wheel_cmd_callback_frame cmd s) as (Hslippy & _).
  destruct (timer_callback_state forward_kinematics P (callback cmd s))
    as (st & c & pose & dd & Hst).
  cbv zeta in Hst. rewrite Hst. cbn.
  rewrite Hspeeds, Hnoisy, Hangles, Hslippy. cbn.
  conjs; try reflexivity.
  - destruct (true_wheel_angles s). cbn. f_equal; lra.
  - destruct (slippy_wheel_angles s). cbn. f_equal; lra.
Qed.

(** X13: the encoder message is the slipping wheel angle in ticks, cut
    toward zero.  After a tick, for an angle whose tick count fits an
    [int], the encoder value is no larger in magnitude than the angle
    times [ENCODER_TICKS_PER_RAD], less than one tick away from it, and
    within the range of [int]. *)
Theorem encoder_truncates_toward_zero s :
  let s' := snd (timer_callback forward_kinematics P s) in
  let ticks_left := left (slippy_wheel_angles s') * ENCODER_TICKS_PER_RAD P in
  let ticks_right :=
    right (slippy_wheel_angles s') * ENCODER_TICKS_PER_RAD P in
  (fits_int ticks_left ->
   Rabs (IZR (left_encoder (sensor_data s'))) <= Rabs ticks_left /\
   Rabs (ticks_left - IZR (left_encoder (sensor_data s'))) < 1 /\
   (INT_MIN <= left_encoder (sensor_data s') <= INT_MAX)%Z) /\
  (fits_int ticks_right ->
   Rabs (IZR (right_encoder (sensor_data s'))) <= Rabs ticks_right /\
   Rabs (ticks_right - IZR (right_encoder (sensor_data s'))) < 1 /\
   (INT_MIN <= right_encoder (sensor_data s') <= INT_MAX)%Z).
Proof.
  cbv zeta.
  destruct (timer_callback_state forward_kinematics P s)
    as (st & c & pose & dd & Hst).
  cbv zeta in Hst. rewrite Hst.
  cbn [sensor_data slippy_wheel_angles left right left_encoder
       right_encoder].
  split; intros Hfit;
    destruct (int_of_double_truncates _ Hfit) as (H1 & H2 & _ & _ & H3);
    auto.
Qed.

End WheelProps.

Section Counters.

Context {Rng DiffDrive : Type}.
Variable forward_kinematics :
  DiffDrive -> Pose2D.t -> WheelState -> Pose2D.t * DiffDrive.
Variable P : Params.
Hypothesis obstacles_paired :
  length (obstacles_x P) = length (obstacles_y P).

Implicit Types s : Nusim Rng DiffDrive.

Local Abbreviation tick := (timer_callback forward_kinematics P).

(** One tick with paired obstacle coordinates: it returns, the time step
    goes up by one (modulo 2^64) and the path counter goes up by one or
    back to 0 from 100. *)
Lemma timer_callback_counters s :
  exists s',
    tick s = (Ok tt, s') /\
    step s' = ((step s + 1) mod 2 ^ 64)%Z /\
    count s' = (if (100 <=? count s)%Z then 0 else count s + 1)%Z.
Proof.
  unfold timer_callback.
  unfold bind at 1 2 3 4. unfold modify at 1 2 3 4. cbv beta iota.
  match goal with
  | |- context [bind (detect_collision P) ?k ?x] =>
      set (before := x); set (rest := k)
  end.
  assert (Hstep : step before = step s /\ count before = count s).
  { unfold before. destruct (forward_kinematics _ _ _). cbn. auto. }
  clearbody before. destruct Hstep as [Hstep Hcount].
  unfold bind.
  pose proof (detect_collision_state P before) as Hdc.
  pose proof (detect_collision_returns P before obstacles_paired) as Hok.
  destruct (detect_collision P before) as [[[] | e] s3];
    cbn [fst snd] in Hdc, Hok; [ | discriminate].
  unfold rest, bind, modify. cbv beta iota.
  eexists. split; [reflexivity | ].
  rewrite Hdc.
  cbn [step count set_true_pose set_counters]. rewrite Hstep, Hcount.
  destruct (100 <=? count s)%Z; cbn; auto.
Qed.

Lemma run_ticks_counters (n a : nat) s :
  (0 <= step s < 2 ^ 64)%Z -> (0 <= count s <= 100)%Z ->
  let r := for_each (seq a n) (fun _ => tick) s in
  fst r = Ok tt /\
  step (snd r) = ((step s + Z.of_nat n) mod 2 ^ 64)%Z /\
  count (snd r) = ((count s + Z.of_nat n) mod 101)%Z.
Proof.
  revert a s. induction n as [ | n IH]; intros a s Hstep Hcount; cbv zeta.
  - cbn [seq for_each]. cbn. rewrite !Z.add_0_r.
    rewrite !Z.mod_small by lia. auto.
  - cbn [seq for_each]. unfold bind.
    destruct (timer_callback_counters s) as (s1 & -> & Hs & Hc).
    assert (Hs1 : (0 <= step s1 < 2 ^ 64)%Z).
    { rewrite Hs. apply Z.mod_pos_bound. lia. }
    assert (Hc1 : (0 <= count s1 <= 100)%Z).
    { rewrite Hc. destruct (Z.leb_spec 100 (count s)); lia. }
    destruct (IH (S a) s1 Hs1 Hc1) as (Hok' & Hs' & Hc').
    conjs; [exact Hok' | | ].
    + rewrite Hs', Hs, Zplus_mod_idemp_l. f_equal. lia.
    + rewrite Hc', Hc. destruct (Z.leb_spec 100 (count s)) as [H100 | H100].
      * assert (count s = 100%Z) by lia.
        replace (count s + Z.of_nat (S n))%Z
          with (Z.of_nat n + 1 * 101)%Z by lia.
        rewrite Z.mod_add by lia. f_equal.
      * f_equal. lia.
Qed.

(** X14: the counters over a run of ticks.  With as many y as x
    coordinates of obstacles, every tick returns; after [n] ticks the time
    step is [step + n] modulo 2^64 and the counter that gates the path
    is [count + n] modulo 101: it takes the publishing branch once in 101
    ticks. *)
Theorem counters_after_ticks (n : nat) s :
  (0 <= step s < 2 ^ 64)%Z -> (0 <= count s <= 100)%Z ->
  fst (run_ticks forward_kinematics P n s) = Ok tt /\
  step (snd (run_ticks forward_kinematics P n s))
  = ((step s + Z.of_nat n) mod 2 ^ 64)%Z /\
  count (snd (run_ticks forward_kinematics P n s))
  = ((count s + Z.of_nat n) mod 101)%Z.
Proof. intros Hs Hc. apply (run_ticks_counters n 0 s Hs Hc). Qed.

End Counters.

(** ** The circle node *)

Section CircleProps.

Import Circle.

(** X15: reversing twice gives the node back as it was, reversing while
    stopped does nothing, and a reversal publishes nothing. *)
Theorem reverse_is_an_involution (s : Circle) :
  reverse_callback (reverse_callback s) = s /\
  (STOPPED s = true -> reverse_callback s = s) /\
  cmd_vel (reverse_callback s) = cmd_vel s /\
  STOPPED (reverse_callback s) = STOPPED s.
Proof.
  destruct s as [[ | ] [[lx ly lz] [ax ay az]] log];
    unfold reverse_callback; cbn; conjs; try reflexivity; try discriminate.
  rewrite !Ropp_involutive. reflexivity.
Qed.

Lemma run_passive_stopped (events : list event) (s : Circle) :
  forallb passive events = true -> STOPPED s = true -> run events s = s.
Proof.
  unfold run. induction events as [ | e events IH]; intros Hp Hs;
    [reflexivity | ].
  cbn in Hp |- *. apply andb_true_iff in Hp as [He Hp].
  destruct e; try discriminate; cbn;
    unfold reverse_callback, timer_callback; rewrite Hs; cbn; auto.
Qed.

(** X16: a stopped node is silent.  After [stop], which publishes one
    zero twist, and on a new node, reversals and timer ticks publish
    nothing and change nothing, until the next control request. *)
Theorem stopped_node_is_silent (events : list event) (s : Circle) :
  forallb passive events = true ->
  run events (stop_callback s) = stop_callback s /\
  cmd_vel (stop_callback s) = cmd_vel s ++ [Twist_zero] /\
  run events Circle_new = Circle_new.
Proof.
  intros Hp. conjs; try reflexivity; apply run_passive_stopped; auto.
Qed.

Lemma run_passive_circling (events : list event) (s : Circle)
      (rad omega : R) :
  forallb passive events = true ->
  STOPPED s = false ->
  twist_msg s = circling rad omega \/ twist_msg s = circling rad (- omega) ->
  exists published,
    cmd_vel (run events s) = cmd_vel s ++ published /\
    Forall (fun msg => msg = circling rad omega \/
                       msg = circling rad (- omega)) published /\
    STOPPED (run events s) = false /\
    (twist_msg (run events s) = circling rad omega \/
     twist_msg (run events s) = circling rad (- omega)).
Proof.
  unfold run. revert s.
  induction events as [ | e events IH]; intros s Hp Hs Ht.
  - exists []. cbn. rewrite app_nil_r. auto.
  - cbn in Hp |- *. apply andb_true_iff in Hp as [He Hp].
    destruct e; try discriminate; cbn [handle].
    + (* Reverse *)
      assert (Hrev : twist_msg (reverse_callback s) = circling rad omega \/
                     twist_msg (reverse_callback s)
                     = circling rad (- omega)).
      { unfold reverse_callback. rewrite Hs. cbn.
        destruct Ht as [-> | ->]; unfold circling; cbn; [right | left];
          repeat f_equal; ring. }
      destruct (IH (reverse_callback s) Hp) as (pub & Hc & Hf & Hst & Htw);
        [unfold reverse_callback; rewrite Hs; reflexivity | exact Hrev | ].
      exists pub. conjs; auto.
      rewrite Hc. unfold reverse_callback. rewrite Hs. reflexivity.
    + (* Timer *)
      destruct (IH (timer_callback s) Hp) as (pub & Hc & Hf & Hst & Htw);
        [ unfold timer_callback; rewrite Hs; exact Hs
        | unfold timer_callback; rewrite Hs; exact Ht | ].
      exists (twist_msg s :: pub). conjs; auto.
      rewrite Hc. unfold timer_callback. rewrite Hs. cbn.
      rewrite <- app_assoc. reflexivity.
Qed.

(** X17: after a control request with angular velocity [v] and radius
    [r], and until the next stop or control request, every twist the
    node publishes drives a circle of radius [r]: it is
    [(linear.x, angular.z) = (v * r, v)] or, after a reversal, the same
    with [- v]; the other four components are zero. *)
Theorem published_twists_keep_the_radius (events : list event)
        (request : ControlRequest) (s : Circle) :
  forallb passive events = true ->
  exists published,
    cmd_vel (run events (control_callback request s))
    = cmd_vel s ++ published /\
    Forall (fun msg =>
              msg = circling (radius request) (velocity request) \/
              msg = circling (radius request) (- velocity request))
           published.
Proof.
  intros Hp.
  destruct (run_passive_circling events (control_callback request s)
              (radius request) (velocity request) Hp)
    as (pub & Hc & Hf & _); [reflexivity | by left | ].
  exists pub. auto.
Qed.

End CircleProps.

(** ** The odometry callback of the slam node *)

Section SlamProps.

Context {DiffDrive : Type}.
Variable body_twist : DiffDrive -> WheelState -> Twist2D * DiffDrive.
Variable forward_kinematics :
  DiffDrive -> Pose2D.t -> WheelState -> Pose2D.t * DiffDrive.

(** X18: a JointState message with fewer than two positions or fewer
    than two velocities makes the callback throw [std::out_of_range]
    before the kinematics run: the twist, the pose and the drive keep
    their values, while the entries read before the throw are already
    stored (with one position only, the left wheel angle is new and the
    right one old). *)
Theorem short_joint_state_throws (js : Slam.JointState)
        (s : Slam.Slam DiffDrive) :
  (length (Slam.position js) < 2 \/ length (Slam.velocity js) < 2)%nat ->
  let r := Slam.joint_states_callback body_twist forward_kinematics js s in
  fst r = Throw out_of_range /\
  Slam.Vb_now (snd r) = Slam.Vb_now s /\
  Slam.pose_now (snd r) = Slam.pose_now s /\
  Slam.ddrive (snd r) = Slam.ddrive s /\
  (forall p0, Slam.position js = [p0] ->
              Slam.wheel_angles_now (snd r)
              = mkWheelState p0 (right (Slam.wheel_angles_now s))).
Proof.
  intros Hshort. cbv zeta.
  unfold Slam.joint_states_callback, bind, lift, modify, vec_at.
  destruct js as [pos vel]. cbn [Slam.position Slam.velocity] in *.
  destruct pos as [ | p0 [ | p1 pos]]; cbn;
    try (conjs; try reflexivity; intros ? [=]; subst; reflexivity).
  destruct vel as [ | v0 [ | v1 vel]]; cbn;
    try (conjs; try reflexivity; intros ? [=]).
  cbn in Hshort. lia.
Qed.

End SlamProps.

(** ** The further properties at concrete inputs *)

Import Scenario2.

Lemma two_rows_per_landmark_witness :
  n_rows (Xi_hat (snd (update [sighting] KalmanFilter_new)))
  = (3 + 2 * size (landmarks_dict
                     (snd (update [sighting] KalmanFilter_new))))%nat.
Proof.
  apply (two_rows_per_landmark tolerance).
  apply reachable_update, reachable_new.
Defined.

Lemma index_entries_are_kept_witness :
  landmarks_dict
    (snd (update_measurements resighting
            (snd (update_measurements sighting KalmanFilter_new))))
  !! 5%Z = Some 5%Z.
Proof.
  apply (index_entries_are_kept tolerance
           (snd (update_measurements sighting KalmanFilter_new)) 5 5).
  rewrite sighting_state. reflexivity.
Defined.

Lemma offsets_distinct_witness :
  (5 <= 5 <= Z.of_nat
               (n_rows (Xi_hat
                  (snd (update_measurements sighting KalmanFilter_new)))))%Z.
Proof.
  apply (offsets_distinct tolerance
           (snd (update_measurements sighting KalmanFilter_new))) with 5%Z.
  - apply reachable_update_measurements, reachable_new.
  - rewrite sighting_state. cbn. lia.
  - rewrite sighting_state. reflexivity.
Defined.

Lemma covariance_stays_zero_witness :
  sigma_hat (snd (predict tolerance turn KalmanFilter_new)) = zeros 3 3.
Proof.
  apply (covariance_stays_zero tolerance).
  apply reachable_predict, reachable_new.
Defined.

Lemma predict_forgets_earlier_predictions_witness :
  snd (predict tolerance standstill
         (snd (predict tolerance turn KalmanFilter_new)))
  = snd (predict tolerance standstill KalmanFilter_new).
Proof.
  apply (predict_forgets_earlier_predictions tolerance turn standstill
           KalmanFilter_new (reachable_new tolerance)).
Defined.

Lemma collide_clears_and_settles_witness :
  snd (collide arena 0 (snd (collide arena 0 (at_rest []))))
  = snd (collide arena 0 (at_rest [])).
Proof.
  apply (collide_clears_and_settles arena 0 0 0 (at_rest []) eq_refl eq_refl).
Defined.

Lemma idle_robot_does_not_drift_witness :
  slippy_wheel_angles
    (snd (Nusim.timer_callback parked arena
            (wheel_cmd_callback tolerance normal_script uniform_script arena
               halt (at_rest [1; 1 / 2]))))
  = slippy_wheel_angles (at_rest [1; 1 / 2]).
Proof.
  apply (idle_robot_does_not_drift tolerance normal_script uniform_script
           parked arena halt (at_rest [1; 1 / 2])).
  - unfold tolerance. lra.
  - reflexivity.
  - reflexivity.
Defined.

Lemma encoder_truncates_toward_zero_witness :
  let s' := snd (Nusim.timer_callback parked arena (at_rest [])) in
  left_encoder (sensor_data s') = 0%Z /\ right_encoder (sensor_data s') = 0%Z.
Proof.
  cbv zeta.
  assert (Hticks :
    let s' := snd (Nusim.timer_callback parked arena (at_rest [])) in
    left (slippy_wheel_angles s') * ENCODER_TICKS_PER_RAD arena = 0 /\
    right (slippy_wheel_angles s') * ENCODER_TICKS_PER_RAD arena = 0).
  { destruct (timer_callback_state parked arena (at_rest []))
      as (st & c & pose & dd & Hst).
    cbv zeta in Hst |- *. rewrite Hst. cbn. lra. }
  assert (Hfit : fits_int 0)
    by (unfold fits_int; rewrite IZR_INT_MIN, IZR_INT_MAX; lra).
  destruct Hticks as [Hl Hr].
  destruct (encoder_truncates_toward_zero parked arena (at_rest []))
    as [Hleft Hright].
  cbv zeta in Hleft, Hright. rewrite Hl in Hleft. rewrite Hr in Hright.
  destruct (Hleft Hfit) as (Hl0 & _). destruct (Hright Hfit) as (Hr0 & _).
  rewrite Rabs_R0 in Hl0, Hr0.
  split; apply eq_IZR; [revert Hl0 | revert Hr0];
    unfold Rabs; destruct (Rcase_abs _); lra.
Defined.

Lemma counters_after_ticks_witness :
  count (snd (run_ticks parked arena 101 (at_rest [])))
  = ((count (at_rest []) + Z.of_nat 101) mod 101)%Z.
Proof.
  apply (counters_after_ticks parked arena eq_refl 101 (at_rest [])).
  - cbn. lia.
  - cbn. lia.
Defined.

Lemma stopped_node_is_silent_witness :
  Circle.run [Circle.Reverse; Circle.Timer]
    (Circle.stop_callback Circle.Circle_new)
  = Circle.stop_callback Circle.Circle_new.
Proof.
  apply (stopped_node_is_silent [Circle.Reverse; Circle.Timer]
           Circle.Circle_new eq_refl).
Defined.

Lemma published_twists_keep_the_radius_witness :
  exists published,
    Circle.cmd_vel
      (Circle.run [Circle.Timer; Circle.Reverse; Circle.Timer]
         (Circle.control_callback request Circle.Circle_new))
    = Circle.cmd_vel Circle.Circle_new ++ published /\
    Forall (fun msg =>
              msg = Circle.circling (Circle.radius request)
                      (Circle.velocity request) \/
              msg = Circle.circling (Circle.radius request)
                      (- Circle.velocity request))
           published.
Proof.
  apply (published_twists_keep_the_radius
           [Circle.Timer; Circle.Reverse; Circle.Timer] request
           Circle.Circle_new eq_refl).
Defined.

Lemma short_joint_state_throws_witness :
  fst (Slam.joint_states_callback no_twist parked short_message
         slam_at_origin)
  = Throw out_of_range.
Proof.
  apply (short_joint_state_throws no_twist parked short_message
           slam_at_origin).
  left. cbn. lia.
Defined.
